(** * Account keeper (x/auth/keeper/keeper.go) and group ORM conversions
      (x/group/orm.go): a shallow embedding and its properties.

    The keeper runs against a key-value store inside a transactional scope;
    a Go [panic] aborts the scope.  Keeper methods are therefore embedded as
    functions from a store to either a result with the new store, or a
    panic. *)

From Stdlib Require Import ZArith Lia List String.
From Stdlib Require Import Init.Byte.
From stdpp Require Import base option list gmap strings countable.

Local Open Scope Z_scope.

(** ** Bytes *)

Abbreviation bytes := (list byte).

#[global] Instance byte_eq_dec : EqDecision byte := Byte.byte_eq_dec.

#[global] Instance byte_countable : Countable byte :=
  inj_countable Byte.to_N Byte.of_N Byte.of_to_N.

(** The byte of an integer, reduced modulo 256 (Go's [byte(x)]). *)
Definition byte_of_Z (z : Z) : byte :=
  default x00 (Byte.of_N (Z.to_N (z mod 256))).

Definition Z_of_byte (b : byte) : Z := Z.of_N (Byte.to_N b).

(** Go's [[]byte(s)] for a string [s]. *)
Definition bytes_of_string (s : string) : bytes := String.list_byte_of_string s.

(** ** Unsigned 64-bit integers

    A [uint64] is an integer in [0, 2^64); addition wraps. *)

Definition uint64 := Z.
Definition uint64_modulus : Z := 2 ^ 64.
Definition is_uint64 (z : Z) : Prop := 0 ≤ z < uint64_modulus.
Definition uint64_add (a b : uint64) : uint64 := (a + b) mod uint64_modulus.

(** Modelled from the spec: [sdk.Uint64ToBigEndian] is in the types
    package; section 6 keys the secondary index by the big-endian number,
    the eight bytes of [n], most significant first. *)
Definition Uint64ToBigEndian (n : uint64) : bytes :=
  map (λ i : Z, byte_of_Z (Z.land (Z.shiftr n (8 * i)) 255)) [7; 6; 5; 4; 3; 2; 1; 0].

(** ** Errors and panics *)

Inductive error : Type :=
  | ErrUnknownAddress (addr : bytes)
      (* sdkerrors.Wrapf(sdkerrors.ErrUnknownAddress, "account %s does not exist", addr) *)
  | ErrInvalidPermission (perm : string)
      (* fmt.Errorf("invalid module permission %s", perm) *)
  | ErrCodec (msg : string)
      (* an error returned by the codec *)
  | ErrMsg (msg : string).
      (* panic("...") with a plain message *)

(** Go's [(T, error)] results. *)
Inductive result (A : Type) : Type :=
  | Ok (a : A)
  | Err (e : error).
Arguments Ok {A} a.
Arguments Err {A} e.

(** ** The store and the keeper monad *)

Abbreviation KVStore := (gmap bytes bytes).

(** The outcome of running a keeper method in a transactional scope. *)
Inductive outcome (A : Type) : Type :=
  | Return (a : A) (store : KVStore)
  | Panic (e : error).
Arguments Return {A} a store.
Arguments Panic {A} e.

Definition M (A : Type) : Type := KVStore → outcome A.

Definition ret {A} (a : A) : M A := λ store, Return a store.

Definition bind {A B} (m : M A) (k : A → M B) : M B :=
  λ store,
    match m store with
    | Return a store' => k a store'
    | Panic e => Panic e
    end.

Definition panic {A} (e : error) : M A := λ _, Panic e.

(** [store.Get(key)]: [None] is Go's [nil]. *)
Definition store_Get (key : bytes) : M (option bytes) :=
  λ store, Return (store !! key) store.

(** [store.Set(key, value)]. *)
Definition store_Set (key value : bytes) : M unit :=
  λ store, Return tt (<[key := value]> store).

Declare Scope keeper_scope.
Delimit Scope keeper_scope with keeper.
Notation "x <- m ;; k" := (bind m (λ x, k))
  (at level 100, m at next level, right associativity) : keeper_scope.
Notation "m ;;; k" := (bind m (λ _, k))
  (at level 100, right associativity) : keeper_scope.
Local Open Scope keeper_scope.

(** ** Accounts (x/auth/types) *)

(** Modelled from the spec: [types.BaseAccount] is declared in x/auth/types;
    section 3 gives an account its address, an optional public key
    ([None] until the account has signed), its number and its sequence. *)
Record BaseAccount : Type := mkBaseAccount {
  Address : bytes;
  PubKey : option bytes;
  AccountNumber : uint64;
  Sequence : uint64;
}.

(** Modelled from the spec: [types.ModuleAccount] is declared in
    x/auth/types; section 3 makes it a base account with a module name and
    its permissions, in order. *)
Record ModuleAccount : Type := mkModuleAccount {
  Base : BaseAccount;
  Name : string;
  Permissions : list string;
}.

(** Modelled from the spec: the interface [types.AccountI] is declared in
    x/auth/types; section 3 has two supported variants, of which only the
    module account implements [types.ModuleAccountI]. *)
Inductive AccountI : Type :=
  | BaseAcc (b : BaseAccount)
  | ModuleAcc (m : ModuleAccount).

Definition base_of (acc : AccountI) : BaseAccount :=
  match acc with
  | BaseAcc b => b
  | ModuleAcc m => Base m
  end.

Definition GetAddress (acc : AccountI) : bytes := Address (base_of acc).
Definition GetPubKey_of (acc : AccountI) : option bytes := PubKey (base_of acc).
Definition GetAccountNumber (acc : AccountI) : uint64 := AccountNumber (base_of acc).
Definition GetSequence_of (acc : AccountI) : uint64 := Sequence (base_of acc).

Definition set_number (n : uint64) (b : BaseAccount) : BaseAccount :=
  {| Address := Address b; PubKey := PubKey b; AccountNumber := n; Sequence := Sequence b |}.

(** Modelled from the spec: [SetAccountNumber] is a method of the account
    types; section 4.3 has the number overwritten and the variant and every
    other field kept. *)
Definition SetAccountNumber (n : uint64) (acc : AccountI) : AccountI :=
  match acc with
  | BaseAcc b => BaseAcc (set_number n b)
  | ModuleAcc m =>
      ModuleAcc {| Base := set_number n (Base m); Name := Name m; Permissions := Permissions m |}
  end.

(** The fields of a record are within their Go types. *)
Definition wf_base (b : BaseAccount) : Prop :=
  is_uint64 (AccountNumber b) ∧ is_uint64 (Sequence b).

Definition wf_account (acc : AccountI) : Prop := wf_base (base_of acc).

(** ** The codec (codec.BinaryCodec)

    The keeper holds its codec behind an interface; the methods it calls are
    [Marshal]/[Unmarshal] on a [gogotypes.UInt64Value] and
    [MarshalInterface]/[UnmarshalInterface] on an account. *)

Record BinaryCodec : Type := mkBinaryCodec {
  Marshal : uint64 → result bytes;
  Unmarshal : bytes → result uint64;
  MarshalInterface : AccountI → result bytes;
  UnmarshalInterface : bytes → result AccountI;
}.

(** [cdc.MustMarshal]: panics where [Marshal] returns an error. *)
Definition MustMarshal (c : BinaryCodec) (v : uint64) : M bytes :=
  match Marshal c v with
  | Ok bz => ret bz
  | Err e => panic e
  end.

(** What the keeper relies on from its codec: values within their types
    encode, and decode back to themselves. *)
Record CodecLaws (c : BinaryCodec) : Prop := mkCodecLaws {
  Unmarshal_Marshal :
    ∀ v, is_uint64 v → ∃ bz, Marshal c v = Ok bz ∧ Unmarshal c bz = Ok v;
  Unmarshal_uint64 :
    ∀ bz v, Unmarshal c bz = Ok v → is_uint64 v;
  UnmarshalInterface_MarshalInterface :
    ∀ acc, wf_account acc →
      ∃ bz, MarshalInterface c acc = Ok bz ∧ UnmarshalInterface c bz = Ok acc;
}.

(** ** Storage keys (x/auth/types) *)

(** Modelled from the spec: [types.GlobalAccountNumberKey] is in
    x/auth/types; section 6 has one global counter key. *)
Definition GlobalAccountNumberKey : bytes := bytes_of_string "globalAccountNumber".

(** Modelled from the spec: [types.AddressStoreKey] is in x/auth/types;
    section 6 keys the primary entry as [account:<address-bytes>]. *)
Definition AddressStoreKey (addr : bytes) : bytes := bytes_of_string "account:" ++ addr.

(** Modelled from the spec: [types.AccountNumberStoreKey] is in x/auth/types;
    section 6 keys the secondary entry as
    [accountByNumber:<big-endian number>]. *)
Definition AccountNumberStoreKey (n : uint64) : bytes :=
  bytes_of_string "accountByNumber:" ++ Uint64ToBigEndian n.

(** ** The permission table (x/auth/types) *)

(** Modelled from the spec: [types.PermissionsForAddress] is declared in
    x/auth/types; section 4.2 keeps, per module, the permission list and the
    derived address.  The zero value, which a Go map yields for a missing
    key, has no permissions and a nil address. *)
Record PermissionsForAddress : Type := mkPermissionsForAddress {
  permissions : list string;
  address : option bytes;
}.

Definition zero_PermissionsForAddress : PermissionsForAddress :=
  {| permissions := []; address := None |}.

(** Modelled from the spec: [PermissionsForAddress.HasPermission] is in
    x/auth/types; section 4.2 gives [hasPermission] as the boolean test of
    membership in the declared, ordered permission sequence. *)
Fixpoint HasPermission_in (perms : list string) (permission : string) : bool :=
  match perms with
  | [] => false
  | perm :: rest =>
      if String.eqb perm permission then true else HasPermission_in rest permission
  end.

Definition HasPermission (pa : PermissionsForAddress) (permission : string) : bool :=
  HasPermission_in (permissions pa) permission.

Section Keeper.

(** The one-way function from which module addresses derive
    ([crypto.AddressHash] of the tendermint library). *)
Variable AddressHash : bytes → bytes.

(** Modelled from the spec: [types.NewModuleAddress] is in x/auth/types;
    sections 3 and 4.2 derive a module's address from its name alone, by
    hashing the name. *)
Definition NewModuleAddress (name : string) : bytes :=
  AddressHash (bytes_of_string name).

(** Modelled from the spec: [types.NewPermissionsForAddress] is in
    x/auth/types; section 4.2 stores, per module name, the derived address
    and the permission list as configured. *)
Definition NewPermissionsForAddress (name : string) (perms : list string)
    : PermissionsForAddress :=
  {| permissions := perms; address := Some (NewModuleAddress name) |}.

(** Modelled from the spec: [types.NewEmptyModuleAccount] is in x/auth/types;
    sections 3 and 4.3 make it an unsaved module account at the module's
    derived address, with the given name and permissions, no public key, and
    number and sequence zero. *)
Definition NewEmptyModuleAccount (name : string) (perms : list string) : ModuleAccount :=
  {| Base := {| Address := NewModuleAddress name; PubKey := None;
                AccountNumber := 0; Sequence := 0 |};
     Name := name;
     Permissions := perms |}.

(** ** The keeper *)

(** [accountKeeper], with the fields the methods below read. *)
Record accountKeeper : Type := mkAccountKeeper {
  cdc : BinaryCodec;
  permAddrs : gmap string PermissionsForAddress;
}.

(** [NewAccountKeeper]: the permission table is filled by one pass over the
    configuration. *)
Definition NewAccountKeeper (c : BinaryCodec) (maccPerms : gmap string (list string))
    : accountKeeper :=
  {| cdc := c;
     permAddrs :=
       map_fold (λ name perms acc, <[name := NewPermissionsForAddress name perms]> acc)
                ∅ maccPerms |}.

(** [MarshalAccount] *)
Definition MarshalAccount (ak : accountKeeper) (accountI : AccountI) : result bytes :=
  MarshalInterface (cdc ak) accountI.

(** [UnmarshalAccount] *)
Definition UnmarshalAccount (ak : accountKeeper) (bz : bytes) : result AccountI :=
  UnmarshalInterface (cdc ak) bz.

(** [decodeAccount] *)
Definition decodeAccount (ak : accountKeeper) (bz : bytes) : M AccountI :=
  match UnmarshalAccount ak bz with
  | Err err => panic err
  | Ok acc => ret acc
  end.

(** [GetNextAccountNumber] *)
Definition GetNextAccountNumber (ak : accountKeeper) : M uint64 :=
  bz <- store_Get GlobalAccountNumberKey ;;
  accNumber <-
    match bz with
    | None => ret 0
    | Some bz =>
        match Unmarshal (cdc ak) bz with
        | Err err => panic err
        | Ok val => ret val
        end
    end ;;
  bz <- MustMarshal (cdc ak) (uint64_add accNumber 1) ;;
  store_Set GlobalAccountNumberKey bz ;;;
  ret accNumber.

(** Modelled from the spec: [GetAccount] is in x/auth/keeper/account.go;
    section 4.1 [get(address)] returns the decoded record or "not found"
    (Go's nil), a decode error being fatal. *)
Definition GetAccount (ak : accountKeeper) (addr : bytes) : M (option AccountI) :=
  bz <- store_Get (AddressStoreKey addr) ;;
  match bz with
  | None => ret None
  | Some bz => acc <- decodeAccount ak bz ;; ret (Some acc)
  end.

(** Modelled from the spec: [SetAccount] is in x/auth/keeper/account.go;
    sections 4.1 [put(record)] and 4.3 [setAccount] encode the record (an
    encoding failure is fatal), write the primary entry keyed by address and
    then the secondary entry from number to address. *)
Definition SetAccount (ak : accountKeeper) (acc : AccountI) : M unit :=
  let addr := GetAddress acc in
  match MarshalAccount ak acc with
  | Err err => panic err
  | Ok bz =>
      store_Set (AddressStoreKey addr) bz ;;;
      store_Set (AccountNumberStoreKey (GetAccountNumber acc)) addr
  end.

(** Modelled from the spec: [NewAccount] is in x/auth/keeper/account.go;
    section 4.3 [newAccount(prototypeRecord)] keeps the caller's variant and
    fields, overwrites only the number with a freshly allocated one, and
    does not persist. *)
Definition NewAccount (ak : accountKeeper) (acc : AccountI) : M AccountI :=
  n <- GetNextAccountNumber ak ;;
  ret (SetAccountNumber n acc).

(** [SetModuleAccount] *)
Definition SetModuleAccount (ak : accountKeeper) (macc : ModuleAccount) : M unit :=
  SetAccount ak (ModuleAcc macc).

(** [GetPubKey] *)
Definition GetPubKey (ak : accountKeeper) (addr : bytes) : M (result (option bytes)) :=
  acc <- GetAccount ak addr ;;
  match acc with
  | None => ret (Err (ErrUnknownAddress addr))
  | Some acc => ret (Ok (GetPubKey_of acc))
  end.

(** [GetSequence] *)
Definition GetSequence (ak : accountKeeper) (addr : bytes) : M (result uint64) :=
  acc <- GetAccount ak addr ;;
  match acc with
  | None => ret (Err (ErrUnknownAddress addr))
  | Some acc => ret (Ok (GetSequence_of acc))
  end.

(** [ValidatePermissions]: [None] is the nil error.  The loop stops at the
    first permission the table does not declare. *)
Fixpoint ValidatePermissions_loop (permAddr : PermissionsForAddress) (perms : list string)
    : option error :=
  match perms with
  | [] => None
  | perm :: rest =>
      if negb (HasPermission permAddr perm)
      then Some (ErrInvalidPermission perm)
      else ValidatePermissions_loop permAddr rest
  end.

Definition ValidatePermissions (ak : accountKeeper) (macc : ModuleAccount) : option error :=
  let permAddr := default zero_PermissionsForAddress (permAddrs ak !! Name macc) in
  ValidatePermissions_loop permAddr (Permissions macc).

(** [GetModuleAddress]: [None] is the nil address. *)
Definition GetModuleAddress (ak : accountKeeper) (moduleName : string) : option bytes :=
  match permAddrs ak !! moduleName with
  | None => None
  | Some permAddr => address permAddr
  end.

(** [GetModuleAddressAndPermissions]: the named results are returned at
    their zero values for a module that is not in the table. *)
Definition GetModuleAddressAndPermissions (ak : accountKeeper) (moduleName : string)
    : option bytes * list string :=
  match permAddrs ak !! moduleName with
  | None => (None, [])
  | Some permAddr => (address permAddr, permissions permAddr)
  end.

(** [GetModuleAccountAndPermissions] *)
Definition GetModuleAccountAndPermissions (ak : accountKeeper) (moduleName : string)
    : M (option ModuleAccount * list string) :=
  let '(addr, perms) := GetModuleAddressAndPermissions ak moduleName in
  match addr with
  | None => ret (None, [])
  | Some addr =>
      acc <- GetAccount ak addr ;;
      match acc with
      | Some acc =>
          match acc with
          | ModuleAcc macc => ret (Some macc, perms)
          | _ => panic (ErrMsg "account is not a module account")
          end
      | None =>
          (* create a new module account *)
          let macc := NewEmptyModuleAccount moduleName perms in
          acc <- NewAccount ak (ModuleAcc macc) ;;
          match acc with
          | ModuleAcc maccI =>
              SetModuleAccount ak maccI ;;;
              ret (Some maccI, perms)
          | _ => panic (ErrMsg "interface conversion: not a types.ModuleAccountI")
          end
      end
  end.

(** [GetModuleAccount] *)
Definition GetModuleAccount (ak : accountKeeper) (moduleName : string)
    : M (option ModuleAccount) :=
  r <- GetModuleAccountAndPermissions ak moduleName ;;
  ret (fst r).

(** ** What the statements below observe *)

(** The value [GetNextAccountNumber] reads: an absent counter counts as
    zero; [None] when the stored bytes do not decode. *)
Definition stored_counter (ak : accountKeeper) (store : KVStore) : option uint64 :=
  match store !! GlobalAccountNumberKey with
  | None => Some 0
  | Some bz =>
      match Unmarshal (cdc ak) bz with
      | Ok val => Some val
      | Err _ => None
      end
  end.

(** [n] allocation calls in sequence, collecting what they return in
    issuance order. *)
Fixpoint allocate (ak : accountKeeper) (n : nat) : M (list uint64) :=
  match n with
  | O => ret []
  | S n' =>
      x <- GetNextAccountNumber ak ;;
      xs <- allocate ak n' ;;
      ret (x :: xs)
  end.

End Keeper.

(** An account is stored at [addr]: the primary entry holds bytes that
    decode to it. *)
Definition account_stored (ak : accountKeeper) (store : KVStore) (addr : bytes)
    (acc : AccountI) : Prop :=
  ∃ bz, store !! AddressStoreKey addr = Some bz ∧ UnmarshalAccount ak bz = Ok acc.

(** No account is stored at [addr]: the primary entry is absent. *)
Definition no_account_stored (store : KVStore) (addr : bytes) : Prop :=
  store !! AddressStoreKey addr = None.

(** A permission is declared for a module when the configuration lists it
    under that module's name. *)
Definition declared_in (maccPerms : gmap string (list string)) (name permission : string)
    : Prop :=
  ∃ perms, maccPerms !! name = Some perms ∧ permission ∈ perms.

(** ** A wire format for the codec

    The codec package is a collaborator of the keeper.  The definitions of
    this part give one codec as the spec's section 6 describes it: an
    encoded unsigned 64-bit value for the counter and, for accounts, a
    tagged binary envelope that identifies the concrete variant and carries
    its fields. *)

(** A decoder reads a value off the front of its input and returns the rest;
    [None] is a decode error. *)
Definition parser (A : Type) : Type := bytes → option (A * bytes).

Definition pret {A} (a : A) : parser A := λ bz, Some (a, bz).

Definition pbind {A B} (p : parser A) (k : A → parser B) : parser B :=
  λ bz,
    match p bz with
    | Some (a, rest) => k a rest
    | None => None
    end.

Definition pfail {A} : parser A := λ _, None.

Declare Scope parser_scope.
Delimit Scope parser_scope with parser.
Notation "x <- m ;; k" := (pbind m (λ x, k))
  (at level 100, m at next level, right associativity) : parser_scope.

(** Modelled from the spec: the encoding of integers is the codec's; section
    6 asks for an encoded unsigned 64-bit value.  Here: a base-128 varint,
    low seven bits first, the high bit of a byte saying that more follow. *)
Fixpoint put_varint_fuel (fuel : nat) (n : Z) : bytes :=
  match fuel with
  | O => [byte_of_Z n]
  | S fuel' =>
      if n <? 128 then [byte_of_Z n]
      else byte_of_Z (n mod 128 + 128) :: put_varint_fuel fuel' (n / 128)
  end.

(** Seven bits are consumed per byte, so [log2 n] steps always suffice. *)
Definition put_varint (n : Z) : bytes := put_varint_fuel (Z.to_nat (Z.log2 n)) n.

(** Modelled from the spec: the decoder of [put_varint]. *)
Fixpoint get_varint (bz : bytes) : option (Z * bytes) :=
  match bz with
  | [] => None
  | b :: rest =>
      let v := Z_of_byte b in
      if v <? 128 then Some (v, rest)
      else
        match get_varint rest with
        | Some (hi, rest') => Some (v - 128 + 128 * hi, rest')
        | None => None
        end
  end.

(** Modelled from the spec: an unsigned 64-bit value (section 6); a varint
    beyond 64 bits is a decode error. *)
Definition get_uint64 : parser uint64 :=
  (n <- get_varint ;;
   if n <? uint64_modulus then pret n else pfail)%parser.

(** Modelled from the spec: a byte-string field of the envelope (section 6),
    written with its length in front. *)
Definition put_bytes (bz : bytes) : bytes :=
  put_varint (Z.of_nat (length bz)) ++ bz.

Definition get_bytes : parser bytes :=
  (n <- get_varint ;;
   λ rest,
     if Z.of_nat (length rest) <? n then None
     else Some (take (Z.to_nat n) rest, drop (Z.to_nat n) rest))%parser.

(** Modelled from the spec: a string field of the envelope, as its bytes. *)
Definition put_string (s : string) : bytes := put_bytes (bytes_of_string s).

Definition get_string : parser string :=
  (bz <- get_bytes ;; pret (String.string_of_list_byte bz))%parser.

(** Modelled from the spec: the optional public key (section 3), a presence
    byte and then the key. *)
Definition put_option_bytes (o : option bytes) : bytes :=
  match o with
  | None => [x00]
  | Some bz => x01 :: put_bytes bz
  end.

Definition get_option_bytes : parser (option bytes) :=
  λ bz,
    match bz with
    | x00 :: rest => Some (None, rest)
    | x01 :: rest => (k <- get_bytes ;; pret (Some k))%parser rest
    | _ => None
    end.

(** Modelled from the spec: the ordered permission strings (section 3), their
    count and then each of them. *)
Definition put_strings (l : list string) : bytes :=
  put_varint (Z.of_nat (length l)) ++ concat (map put_string l).

Fixpoint get_strings_n (n : nat) : parser (list string) :=
  match n with
  | O => pret []
  | S n' => (s <- get_string ;; l <- get_strings_n n' ;; pret (s :: l))%parser
  end.

Definition get_strings : parser (list string) :=
  (n <- get_varint ;; get_strings_n (Z.to_nat n))%parser.

(** Modelled from the spec: the fields of a base account (section 3), in
    order. *)
Definition put_BaseAccount (b : BaseAccount) : bytes :=
  put_bytes (Address b) ++ put_option_bytes (PubKey b)
    ++ put_varint (AccountNumber b) ++ put_varint (Sequence b).

Definition get_BaseAccount : parser BaseAccount :=
  (addr <- get_bytes ;;
   pk <- get_option_bytes ;;
   num <- get_uint64 ;;
   seq <- get_uint64 ;;
   pret {| Address := addr; PubKey := pk; AccountNumber := num; Sequence := seq |})%parser.

(** Modelled from the spec: the fields of a module account (section 3): the
    base account, the module name, the permissions. *)
Definition put_ModuleAccount (m : ModuleAccount) : bytes :=
  put_BaseAccount (Base m) ++ put_string (Name m) ++ put_strings (Permissions m).

Definition get_ModuleAccount : parser ModuleAccount :=
  (b <- get_BaseAccount ;;
   name <- get_string ;;
   perms <- get_strings ;;
   pret {| Base := b; Name := name; Permissions := perms |})%parser.

(** The tags of the two variants: their type URLs. *)
Definition BaseAccount_url : string := "/cosmos.auth.v1beta1.BaseAccount".
Definition ModuleAccount_url : string := "/cosmos.auth.v1beta1.ModuleAccount".

(** Modelled from the spec: the account wire envelope of section 6, a tag
    that identifies the concrete variant, then the variant's fields. *)
Definition put_AccountI (acc : AccountI) : bytes :=
  match acc with
  | BaseAcc b => put_string BaseAccount_url ++ put_BaseAccount b
  | ModuleAcc m => put_string ModuleAccount_url ++ put_ModuleAccount m
  end.

(** Modelled from the spec: decoding the envelope of section 6 into a typed
    record; a tag that is not recognised is a decode error. *)
Definition get_AccountI : parser AccountI :=
  (url <- get_string ;;
   if String.eqb url BaseAccount_url then
     b <- get_BaseAccount ;; pret (BaseAcc b)
   else if String.eqb url ModuleAccount_url then
     m <- get_ModuleAccount ;; pret (ModuleAcc m)
   else pfail)%parser.

(** A decode succeeds only when it consumes its whole input. *)
Definition decode_all {A} (p : parser A) (what : string) (bz : bytes) : result A :=
  match p bz with
  | Some (a, []) => Ok a
  | _ => Err (ErrCodec what)
  end.

(** Modelled from the spec: the codec the keeper is built with, which is in
    the codec package; section 6 asks it for the encodings above. *)
Definition WireCodec : BinaryCodec :=
  {| Marshal := λ v, Ok (put_varint v);
     Unmarshal := decode_all get_uint64 "UInt64Value";
     MarshalInterface := λ acc, Ok (put_AccountI acc);
     UnmarshalInterface := decode_all get_AccountI "AccountI" |}.

(** ** Group ORM conversions (x/group/orm.go) *)

(** Signed fixed-width integers: Go's [int32(x)] and [int64(x)]. *)
Definition int32 (z : Z) : Z := (z + 2 ^ 31) mod 2 ^ 32 - 2 ^ 31.
Definition int64 (z : Z) : Z := (z + 2 ^ 63) mod 2 ^ 64 - 2 ^ 63.

Module time.

(** The location of a Go time: [UTC], [Local], or another zone. *)
Inductive Location : Type :=
  | UTC
  | Local
  | Zone (name : string) (offset : Z).

(** A Go [time.Time] that carries no monotonic clock reading, as what [==]
    compares: the instant (seconds since the Unix epoch, nanoseconds within
    the second) and the location. *)
Record Time : Type := mkTime {
  sec : Z;
  nsec : Z;
  loc : Location;
}.

(** [t.Unix()] *)
Definition Unix_of (t : Time) : Z := sec t.

(** [t.Nanosecond()] *)
Definition Nanosecond (t : Time) : Z := nsec t.

(** [time.Unix(sec, nsec)]: nanoseconds outside [0, 1e9) are carried into
    the seconds; the result is in [Local]. *)
Definition Unix (sec nsec : Z) : Time :=
  if (nsec <? 0) || (nsec >=? 10 ^ 9) then
    let n := Z.quot nsec (10 ^ 9) in
    let sec := int64 (sec + n) in
    let nsec := int64 (nsec - n * 10 ^ 9) in
    if nsec <? 0
    then {| sec := int64 (sec - 1); nsec := int32 (int64 (nsec + 10 ^ 9)); loc := Local |}
    else {| sec := sec; nsec := int32 nsec; loc := Local |}
  else {| sec := sec; nsec := int32 nsec; loc := Local |}.

(** [t.UTC()]: the same instant, in [UTC]. *)
Definition to_UTC (t : Time) : Time :=
  {| sec := sec t; nsec := nsec t; loc := UTC |}.

End time.

Module timestamppb.

(** [timestamppb.Timestamp]: [Seconds] is an int64, [Nanos] an int32. *)
Record Timestamp : Type := mkTimestamp {
  Seconds : Z;
  Nanos : Z;
}.

(** The getters read zero through a nil pointer. *)
Definition GetSeconds (x : option Timestamp) : Z :=
  match x with
  | Some ts => Seconds ts
  | None => 0
  end.

Definition GetNanos (x : option Timestamp) : Z :=
  match x with
  | Some ts => Nanos ts
  | None => 0
  end.

(** [timestamppb.New(t)] *)
Definition New (t : time.Time) : option Timestamp :=
  Some {| Seconds := int64 (time.Unix_of t); Nanos := int32 (time.Nanosecond t) |}.

(** [x.AsTime()] *)
Definition AsTime (x : option Timestamp) : time.Time :=
  time.to_UTC (time.Unix (int64 (GetSeconds x)) (int64 (GetNanos x))).

(** The range [x.CheckValid()] accepts: 0001-01-01T00:00:00Z up to
    9999-12-31T23:59:59.999999999Z. *)
Definition representable (t : time.Time) : Prop :=
  -62135596800 ≤ time.sec t ≤ 253402300799 ∧ 0 ≤ time.nsec t < 10 ^ 9.

End timestamppb.

(** [t] is a UTC time that a protobuf timestamp can hold. *)
Definition utc_representable (t : time.Time) : Prop :=
  time.loc t = time.UTC ∧ timestamppb.representable t.

(** The generated types of cosmossdk.io/api/cosmos/group/v1, with the
    fields the conversions read and fill.  A pointer to a timestamp may be
    nil: [None]. *)
Module groupv1.

(** [groupv1.VoteOption]: an int32 enumeration. *)
Definition VoteOption := Z.

Record GroupInfo : Type := mkGroupInfo {
  GroupInfo_Id : uint64;
  GroupInfo_Admin : string;
  GroupInfo_Version : uint64;
  GroupInfo_TotalWeight : string;
  GroupInfo_Metadata : string;
  GroupInfo_CreatedAt : option timestamppb.Timestamp;
}.

Record Vote : Type := mkVote {
  Vote_ProposalId : uint64;
  Vote_Voter : string;
  Vote_Option : VoteOption;
  Vote_Metadata : string;
  Vote_SubmitTime : option timestamppb.Timestamp;
}.

End groupv1.

(** [group.VoteOption]: an int32 enumeration. *)
Definition VoteOption := Z.

(** The conversions [groupv1.VoteOption(x)] and [VoteOption(x)] between the
    two int32 enumerations keep the value. *)
Definition to_groupv1_VoteOption (o : VoteOption) : groupv1.VoteOption := o.
Definition of_groupv1_VoteOption (o : groupv1.VoteOption) : VoteOption := o.

(** [group.GroupInfo], with the fields [GroupInfoFromPulsar] fills. *)
Record GroupInfo : Type := mkGroupInfo {
  GroupInfo_Id : uint64;
  GroupInfo_Admin : string;
  GroupInfo_Version : uint64;
  GroupInfo_TotalWeight : string;
  GroupInfo_Metadata : string;
  GroupInfo_CreatedAt : time.Time;
}.

(** [group.Vote], with the fields [VoteFromPulsar] fills. *)
Record Vote : Type := mkVote {
  Vote_ProposalId : uint64;
  Vote_Voter : string;
  Vote_Option : VoteOption;
  Vote_Metadata : string;
  Vote_SubmitTime : time.Time;
}.

(** [GroupInfoFromPulsar], on the value its argument points to. *)
Definition GroupInfoFromPulsar (groupInfo : groupv1.GroupInfo) : GroupInfo :=
  {| GroupInfo_Id := groupv1.GroupInfo_Id groupInfo;
     GroupInfo_Admin := groupv1.GroupInfo_Admin groupInfo;
     GroupInfo_Version := groupv1.GroupInfo_Version groupInfo;
     GroupInfo_TotalWeight := groupv1.GroupInfo_TotalWeight groupInfo;
     GroupInfo_Metadata := groupv1.GroupInfo_Metadata groupInfo;
     GroupInfo_CreatedAt := timestamppb.AsTime (groupv1.GroupInfo_CreatedAt groupInfo) |}.

(** [GroupInfoToPulsar]; the result is the value behind the pointer it
    returns. *)
Definition GroupInfoToPulsar (groupInfo : GroupInfo) : groupv1.GroupInfo :=
  {| groupv1.GroupInfo_Id := GroupInfo_Id groupInfo;
     groupv1.GroupInfo_Admin := GroupInfo_Admin groupInfo;
     groupv1.GroupInfo_Version := GroupInfo_Version groupInfo;
     groupv1.GroupInfo_TotalWeight := GroupInfo_TotalWeight groupInfo;
     groupv1.GroupInfo_Metadata := GroupInfo_Metadata groupInfo;
     groupv1.GroupInfo_CreatedAt := timestamppb.New (GroupInfo_CreatedAt groupInfo) |}.

(** [VoteFromPulsar], on the value its argument points to. *)
Definition VoteFromPulsar (vote : groupv1.Vote) : Vote :=
  {| Vote_ProposalId := groupv1.Vote_ProposalId vote;
     Vote_Voter := groupv1.Vote_Voter vote;
     Vote_Option := of_groupv1_VoteOption (groupv1.Vote_Option vote);
     Vote_Metadata := groupv1.Vote_Metadata vote;
     Vote_SubmitTime := timestamppb.AsTime (groupv1.Vote_SubmitTime vote) |}.

(** [VoteToPulsar]; the result is the value behind the pointer it returns. *)
Definition VoteToPulsar (vote : Vote) : groupv1.Vote :=
  {| groupv1.Vote_ProposalId := Vote_ProposalId vote;
     groupv1.Vote_Voter := Vote_Voter vote;
     groupv1.Vote_Option := to_groupv1_VoteOption (Vote_Option vote);
     groupv1.Vote_Metadata := Vote_Metadata vote;
     groupv1.Vote_SubmitTime := timestamppb.New (Vote_SubmitTime vote) |}.

(** ** A concrete configuration

    The scenario of the spec's section 8: module [fee_collector] with
    permission [burner], beside [bonded_pool]; the wire format above as the
    codec, and a 20-byte stand-in for the address hash. *)

Definition sample_AddressHash (bz : bytes) : bytes :=
  take 20 (bz ++ replicate 20 x00).

Definition sample_maccPerms : gmap string (list string) :=
  <["fee_collector"%string := ["burner"%string]]>
    (<["bonded_pool"%string := ["burner"%string; "staking"%string]]> ∅).

Definition sample_keeper : accountKeeper :=
  NewAccountKeeper sample_AddressHash WireCodec sample_maccPerms.

(** Records to run the codec and the conversions on. *)
Definition sample_BaseAccount : BaseAccount :=
  {| Address := [x0a; x0b; x0c]; PubKey := Some [x02; xff; x00];
     AccountNumber := 7; Sequence := 300 |}.

Definition sample_ModuleAccount : ModuleAccount :=
  {| Base := {| Address := NewModuleAddress sample_AddressHash "fee_collector";
                PubKey := None; AccountNumber := 2 ^ 64 - 1; Sequence := 0 |};
     Name := "fee_collector";
     Permissions := ["burner"%string] |}.

Definition sample_GroupInfo : GroupInfo :=
  {| GroupInfo_Id := 1; GroupInfo_Admin := "cosmos1admin"; GroupInfo_Version := 3;
     GroupInfo_TotalWeight := "10"; GroupInfo_Metadata := "core team";
     GroupInfo_CreatedAt := {| time.sec := 1700000000; time.nsec := 123456789;
                               time.loc := time.UTC |} |}.

Definition sample_Vote : Vote :=
  {| Vote_ProposalId := 5; Vote_Voter := "cosmos1voter"; Vote_Option := 1;
     Vote_Metadata := "yes";
     Vote_SubmitTime := {| time.sec := -1; time.nsec := 999999999;
                           time.loc := time.UTC |} |}.

(** A store that holds [sample_BaseAccount] at its address. *)
Definition sample_store : KVStore :=
  {[ AddressStoreKey (Address sample_BaseAccount) := put_AccountI (BaseAcc sample_BaseAccount) ]}.

(** ** The other group ORM conversions (x/group/orm.go) *)

(** What a Go panic carries, where a conversion can panic. *)
Inductive panic_value : Type :=
  | NilDereference
      (* runtime error: invalid memory address or nil pointer dereference *)
  | FailedToTransform (err : error).
      (* panic(fmt.Sprintf("failed to transform decision policy: %s", err)) *)

(** How a conversion ends: with its result, or in a panic. *)
Inductive completion (A : Type) : Type :=
  | Done (a : A)
  | Panicked (p : panic_value).
Arguments Done {A} a.
Arguments Panicked {A} p.

(** [groupv1.Member] and [groupv1.GroupMember], with the fields the
    conversions read and fill; a nil pointer is [None]. *)
Record groupv1_Member : Type := mkGroupv1Member {
  v1_Member_Address : string;
  v1_Member_Weight : string;
  v1_Member_Metadata : string;
  v1_Member_AddedAt : option timestamppb.Timestamp;
}.

Record groupv1_GroupMember : Type := mkGroupv1GroupMember {
  v1_GroupMember_GroupId : uint64;
  v1_GroupMember_MemberAddress : string;
  v1_GroupMember_Member : option groupv1_Member;
}.

(** [group.Member] and [group.GroupMember], with the fields the conversions
    read and fill. *)
Record Member : Type := mkMember {
  Member_Address : string;
  Member_Weight : string;
  Member_Metadata : string;
  Member_AddedAt : time.Time;
}.

Record GroupMember : Type := mkGroupMember {
  GroupMember_GroupId : uint64;
  GroupMember_MemberAddress : string;
  GroupMember_Member : option Member;
}.

(** [GroupMemberFromPulsar], on the value its argument points to.  The
    fields of [groupMember.Member] are read through the pointer, which
    panics when it is nil. *)
Definition GroupMemberFromPulsar (groupMember : groupv1_GroupMember)
    : completion GroupMember :=
  match v1_GroupMember_Member groupMember with
  | None => Panicked NilDereference
  | Some member =>
      Done {| GroupMember_GroupId := v1_GroupMember_GroupId groupMember;
              GroupMember_MemberAddress := v1_Member_Address member;
              GroupMember_Member :=
                Some {| Member_Address := v1_Member_Address member;
                        Member_Weight := v1_Member_Weight member;
                        Member_Metadata := v1_Member_Metadata member;
                        Member_AddedAt := timestamppb.AsTime (v1_Member_AddedAt member) |} |}
  end.

(** [GroupMemberToPulsar]; the result is the value behind the pointer it
    returns. *)
Definition GroupMemberToPulsar (groupMember : GroupMember)
    : completion groupv1_GroupMember :=
  match GroupMember_Member groupMember with
  | None => Panicked NilDereference
  | Some member =>
      Done {| v1_GroupMember_GroupId := GroupMember_GroupId groupMember;
              v1_GroupMember_MemberAddress := Member_Address member;
              v1_GroupMember_Member :=
                Some {| v1_Member_Address := Member_Address member;
                        v1_Member_Weight := Member_Weight member;
                        v1_Member_Metadata := Member_Metadata member;
                        v1_Member_AddedAt := timestamppb.New (Member_AddedAt member) |} |}
  end.

(** One conversion after another; a panic ends the run. *)
Definition and_then {A B} (r : completion A) (k : A → completion B) : completion B :=
  match r with
  | Done a => k a
  | Panicked p => Panicked p
  end.

(** [group.ProposalStatus], [group.ProposalExecutorResult] and their
    generated counterparts: int32 enumerations, converted by value. *)
Definition ProposalStatus := Z.
Definition ProposalExecutorResult := Z.
Definition to_groupv1_ProposalStatus (x : ProposalStatus) : Z := x.
Definition of_groupv1_ProposalStatus (x : Z) : ProposalStatus := x.
Definition to_groupv1_ProposalExecutorResult (x : ProposalExecutorResult) : Z := x.
Definition of_groupv1_ProposalExecutorResult (x : Z) : ProposalExecutorResult := x.

Section AnyConversions.

(** The two representations of a packed message: [codectypes.Any] and
    [anypb.Any]; and the interface [group.DecisionPolicy]. *)
Variables GogoAny AnyV2 DecisionPolicy : Type.

(** [codectypes.GogoAnyToAnyV2] and [codectypes.AnyV2ToGogoAny], of the
    codec/types package. *)
Variable GogoAnyToAnyV2 : GogoAny → AnyV2.
Variable AnyV2ToGogoAny : AnyV2 → GogoAny.

(** [codectypes.NewAnyWithValue], of the codec/types package. *)
Variable NewAnyWithValue : DecisionPolicy → result GogoAny.

(** [codec.Codec], with the method the conversions call:
    [cdc.UnpackAny(any, &decisionPolicy)]. *)
Record Codec : Type := mkCodec {
  UnpackAny : GogoAny → result DecisionPolicy;
}.

(** [groupv1.Proposal], with the fields the conversions read and fill. *)
Record groupv1_Proposal : Type := mkGroupv1Proposal {
  v1_Proposal_Id : uint64;
  v1_Proposal_GroupPolicyAddress : string;
  v1_Proposal_Proposers : list string;
  v1_Proposal_Metadata : string;
  v1_Proposal_SubmitTime : option timestamppb.Timestamp;
  v1_Proposal_GroupVersion : uint64;
  v1_Proposal_GroupPolicyVersion : uint64;
  v1_Proposal_Status : Z;
  v1_Proposal_VotingPeriodEnd : option timestamppb.Timestamp;
  v1_Proposal_ExecutorResult : Z;
  v1_Proposal_Messages : list AnyV2;
  v1_Proposal_Title : string;
  v1_Proposal_Summary : string;
}.

(** [group.Proposal], with the fields the conversions read and fill. *)
Record Proposal : Type := mkProposal {
  Proposal_Id : uint64;
  Proposal_GroupPolicyAddress : string;
  Proposal_Proposers : list string;
  Proposal_Metadata : string;
  Proposal_SubmitTime : time.Time;
  Proposal_GroupVersion : uint64;
  Proposal_GroupPolicyVersion : uint64;
  Proposal_Status : ProposalStatus;
  Proposal_VotingPeriodEnd : time.Time;
  Proposal_ExecutorResult : ProposalExecutorResult;
  Proposal_Messages : list GogoAny;
  Proposal_Title : string;
  Proposal_Summary : string;
}.

(** The loop both proposal conversions run: each message is converted and
    appended, in order. *)
Definition convert_messages {A B} (convert : A → B) (msgs : list A) : list B :=
  foldl (λ messages msg, messages ++ [convert msg]) [] msgs.

(** [ProposalToPulsar]; the result is the value behind the pointer it
    returns. *)
Definition ProposalToPulsar (proposal : Proposal) : groupv1_Proposal :=
  let messages := convert_messages GogoAnyToAnyV2 (Proposal_Messages proposal) in
  {| v1_Proposal_Id := Proposal_Id proposal;
     v1_Proposal_GroupPolicyAddress := Proposal_GroupPolicyAddress proposal;
     v1_Proposal_Proposers := Proposal_Proposers proposal;
     v1_Proposal_Metadata := Proposal_Metadata proposal;
     v1_Proposal_SubmitTime := timestamppb.New (Proposal_SubmitTime proposal);
     v1_Proposal_GroupVersion := Proposal_GroupVersion proposal;
     v1_Proposal_GroupPolicyVersion := Proposal_GroupPolicyVersion proposal;
     v1_Proposal_Status := to_groupv1_ProposalStatus (Proposal_Status proposal);
     v1_Proposal_VotingPeriodEnd := timestamppb.New (Proposal_VotingPeriodEnd proposal);
     v1_Proposal_ExecutorResult :=
       to_groupv1_ProposalExecutorResult (Proposal_ExecutorResult proposal);
     v1_Proposal_Messages := messages;
     v1_Proposal_Title := Proposal_Title proposal;
     v1_Proposal_Summary := Proposal_Summary proposal |}.

(** [ProposalFromPulsar], on the value its argument points to; the codec it
    is given is not used. *)
Definition ProposalFromPulsar (cdc : Codec) (proposal : groupv1_Proposal) : Proposal :=
  let messages := convert_messages AnyV2ToGogoAny (v1_Proposal_Messages proposal) in
  {| Proposal_Id := v1_Proposal_Id proposal;
     Proposal_GroupPolicyAddress := v1_Proposal_GroupPolicyAddress proposal;
     Proposal_Proposers := v1_Proposal_Proposers proposal;
     Proposal_Metadata := v1_Proposal_Metadata proposal;
     Proposal_SubmitTime := timestamppb.AsTime (v1_Proposal_SubmitTime proposal);
     Proposal_GroupVersion := v1_Proposal_GroupVersion proposal;
     Proposal_GroupPolicyVersion := v1_Proposal_GroupPolicyVersion proposal;
     Proposal_Status := of_groupv1_ProposalStatus (v1_Proposal_Status proposal);
     Proposal_VotingPeriodEnd := timestamppb.AsTime (v1_Proposal_VotingPeriodEnd proposal);
     Proposal_ExecutorResult :=
       of_groupv1_ProposalExecutorResult (v1_Proposal_ExecutorResult proposal);
     Proposal_Messages := messages;
     Proposal_Title := v1_Proposal_Title proposal;
     Proposal_Summary := v1_Proposal_Summary proposal |}.

(** [groupv1.GroupPolicyInfo], with the fields the conversions read and
    fill. *)
Record groupv1_GroupPolicyInfo : Type := mkGroupv1GroupPolicyInfo {
  v1_GroupPolicyInfo_Address : string;
  v1_GroupPolicyInfo_GroupId : uint64;
  v1_GroupPolicyInfo_Admin : string;
  v1_GroupPolicyInfo_Metadata : string;
  v1_GroupPolicyInfo_Version : uint64;
  v1_GroupPolicyInfo_GroupPolicySequence : uint64;
  v1_GroupPolicyInfo_DecisionPolicy : option AnyV2;
}.

(** [group.GroupPolicyInfo], with the fields the conversions read and
    fill. *)
Record GroupPolicyInfo : Type := mkGroupPolicyInfo {
  GroupPolicyInfo_Address : string;
  GroupPolicyInfo_GroupId : uint64;
  GroupPolicyInfo_Admin : string;
  GroupPolicyInfo_Metadata : string;
  GroupPolicyInfo_Version : uint64;
  GroupPolicyInfo_GroupPolicySequence : uint64;
  GroupPolicyInfo_DecisionPolicy : option GogoAny;
}.

(** [result.DecisionPolicy = any] *)
Definition with_DecisionPolicy (result : GroupPolicyInfo) (any : option GogoAny)
    : GroupPolicyInfo :=
  {| GroupPolicyInfo_Address := GroupPolicyInfo_Address result;
     GroupPolicyInfo_GroupId := GroupPolicyInfo_GroupId result;
     GroupPolicyInfo_Admin := GroupPolicyInfo_Admin result;
     GroupPolicyInfo_Metadata := GroupPolicyInfo_Metadata result;
     GroupPolicyInfo_Version := GroupPolicyInfo_Version result;
     GroupPolicyInfo_GroupPolicySequence := GroupPolicyInfo_GroupPolicySequence result;
     GroupPolicyInfo_DecisionPolicy := any |}.

(** [GroupPolicyInfoFromPulsar], on the value its argument points to. *)
Definition GroupPolicyInfoFromPulsar (cdc : Codec) (groupPolicyInfo : groupv1_GroupPolicyInfo)
    : completion GroupPolicyInfo :=
  let result :=
    {| GroupPolicyInfo_Address := v1_GroupPolicyInfo_Address groupPolicyInfo;
       GroupPolicyInfo_GroupId := v1_GroupPolicyInfo_GroupId groupPolicyInfo;
       GroupPolicyInfo_Admin := v1_GroupPolicyInfo_Admin groupPolicyInfo;
       GroupPolicyInfo_Metadata := v1_GroupPolicyInfo_Metadata groupPolicyInfo;
       GroupPolicyInfo_Version := v1_GroupPolicyInfo_Version groupPolicyInfo;
       GroupPolicyInfo_GroupPolicySequence :=
         v1_GroupPolicyInfo_GroupPolicySequence groupPolicyInfo;
       GroupPolicyInfo_DecisionPolicy := None |} in
  match v1_GroupPolicyInfo_DecisionPolicy groupPolicyInfo with
  | Some any =>
      match UnpackAny cdc (AnyV2ToGogoAny any) with
      | Err err => Panicked (FailedToTransform err)
      | Ok decisionPolicy =>
          match NewAnyWithValue decisionPolicy with
          | Err err => Panicked (FailedToTransform err)
          | Ok packed => Done (with_DecisionPolicy result (Some packed))
          end
      end
  | None => Done result
  end.

(** [GroupPolicyInfoToPulsar]; the result is the value behind the pointer it
    returns. *)
Definition GroupPolicyInfoToPulsar (groupPolicyInfo : GroupPolicyInfo)
    : groupv1_GroupPolicyInfo :=
  {| v1_GroupPolicyInfo_Address := GroupPolicyInfo_Address groupPolicyInfo;
     v1_GroupPolicyInfo_GroupId := GroupPolicyInfo_GroupId groupPolicyInfo;
     v1_GroupPolicyInfo_Admin := GroupPolicyInfo_Admin groupPolicyInfo;
     v1_GroupPolicyInfo_Metadata := GroupPolicyInfo_Metadata groupPolicyInfo;
     v1_GroupPolicyInfo_Version := GroupPolicyInfo_Version groupPolicyInfo;
     v1_GroupPolicyInfo_GroupPolicySequence :=
       GroupPolicyInfo_GroupPolicySequence groupPolicyInfo;
     v1_GroupPolicyInfo_DecisionPolicy :=
       match GroupPolicyInfo_DecisionPolicy groupPolicyInfo with
       | Some any => Some (GogoAnyToAnyV2 any)
       | None => None
       end |}.

End AnyConversions.

(** The fields of a timestamp, if there is one, are within their Go types:
    [Seconds] an int64, [Nanos] an int32. *)
Definition timestamp_typed (x : option timestamppb.Timestamp) : Prop :=
  match x with
  | Some ts =>
      - 2 ^ 63 ≤ timestamppb.Seconds ts < 2 ^ 63 ∧
      - 2 ^ 31 ≤ timestamppb.Nanos ts < 2 ^ 31
  | None => True
  end.

(** A timestamp is there, and its nanoseconds are within the second. *)
Definition timestamp_normal (x : option timestamppb.Timestamp) : Prop :=
  ∃ ts, x = Some ts ∧ 0 ≤ timestamppb.Nanos ts < 10 ^ 9.

(** Packed messages to run the conversions on: a type URL with a value, the
    same on both sides; a decision policy that is a threshold, packed as its
    varint. *)
Definition sample_Any : Type := string * bytes.

Definition sample_policy_url : string := "/cosmos.group.v1.ThresholdDecisionPolicy".

Definition sample_NewAnyWithValue (threshold : Z) : result sample_Any :=
  if threshold <? 0 then Err (ErrMsg "negative threshold")
  else Ok (sample_policy_url, put_varint threshold).

Definition sample_Codec : Codec sample_Any Z :=
  {| UnpackAny := λ any : sample_Any,
       if String.eqb (fst any) sample_policy_url
       then decode_all get_varint "DecisionPolicy" (snd any)
       else Err (ErrCodec "no concrete type registered") |}.

Definition sample_GroupPolicyInfo : GroupPolicyInfo sample_Any :=
  {| GroupPolicyInfo_Address := "cosmos1policy"; GroupPolicyInfo_GroupId := 1;
     GroupPolicyInfo_Admin := "cosmos1admin"; GroupPolicyInfo_Metadata := "policy";
     GroupPolicyInfo_Version := 2; GroupPolicyInfo_GroupPolicySequence := 4;
     GroupPolicyInfo_DecisionPolicy := Some (sample_policy_url, put_varint 3) |}.

Definition sample_Member : Member :=
  {| Member_Address := "cosmos1member"; Member_Weight := "2";
     Member_Metadata := "founder";
     Member_AddedAt := {| time.sec := 1700000000; time.nsec := 5; time.loc := time.UTC |} |}.

Definition sample_Proposal : Proposal sample_Any :=
  {| Proposal_Id := 9; Proposal_GroupPolicyAddress := "cosmos1policy";
     Proposal_Proposers := ["cosmos1member"%string]; Proposal_Metadata := "proposal";
     Proposal_SubmitTime := {| time.sec := 1700000000; time.nsec := 0; time.loc := time.UTC |};
     Proposal_GroupVersion := 3; Proposal_GroupPolicyVersion := 2;
     Proposal_Status := 1;
     Proposal_VotingPeriodEnd :=
       {| time.sec := 1700086400; time.nsec := 0; time.loc := time.UTC |};
     Proposal_ExecutorResult := 1;
     Proposal_Messages := [("/cosmos.bank.v1beta1.MsgSend"%string, [x0a; x01]);
                           ("/cosmos.gov.v1.MsgVote"%string, [x08; x02])];
     Proposal_Title := "title"; Proposal_Summary := "summary" |}.

(** ** Proof steps that recur *)

(** Run the monad's operations. *)
Ltac unfold_M :=
  unfold bind, ret, panic, store_Get, store_Set, MustMarshal in *.

(** Linear arithmetic within the range of [uint64]. *)
Ltac u64 := unfold is_uint64, uint64_modulus in *; lia.

(** * Properties *)

Lemma uint64_add_range a b : is_uint64 (uint64_add a b).
Proof.
  unfold is_uint64, uint64_add, uint64_modulus.
  apply Z.mod_pos_bound. lia.
Qed.

Lemma uint64_add_small a b :
  0 ≤ a + b < uint64_modulus → uint64_add a b = a + b.
Proof. intros H. unfold uint64_add. now apply Z.mod_small. Qed.

Section Allocator.

Variable ak : accountKeeper.
Hypothesis laws : CodecLaws (cdc ak).

Lemma stored_counter_range store c :
  stored_counter ak store = Some c → is_uint64 c.
Proof.
  unfold stored_counter.
  destruct (store !! GlobalAccountNumberKey) as [bz|].
  - destruct (Unmarshal (cdc ak) bz) as [v|] eqn:E; [|discriminate].
    intros [= <-]. eapply Unmarshal_uint64; eauto.
  - intros [= <-]. u64.
Qed.

(** One call: returns the counter read and stores its successor. *)
Lemma GetNextAccountNumber_step store c :
  stored_counter ak store = Some c →
  ∃ bz,
    Marshal (cdc ak) (uint64_add c 1) = Ok bz ∧
    Unmarshal (cdc ak) bz = Ok (uint64_add c 1) ∧
    GetNextAccountNumber ak store = Return c (<[GlobalAccountNumberKey := bz]> store).
Proof.
  intros Hc.
  destruct (Unmarshal_Marshal _ laws (uint64_add c 1) (uint64_add_range c 1))
    as (bz & Hm & Hu).
  exists bz. split; [exact Hm|]. split; [exact Hu|].
  unfold GetNextAccountNumber, stored_counter in *. unfold_M.
  destruct (store !! GlobalAccountNumberKey) as [bz0|].
  - destruct (Unmarshal (cdc ak) bz0) as [v|]; [|discriminate].
    injection Hc as ->. now rewrite Hm.
  - injection Hc as <-. now rewrite Hm.
Qed.

Lemma stored_counter_insert store bz v :
  Unmarshal (cdc ak) bz = Ok v →
  stored_counter ak (<[GlobalAccountNumberKey := bz]> store) = Some v.
Proof.
  intros Hu. unfold stored_counter. rewrite lookup_insert_eq. now rewrite Hu.
Qed.

(** [n] calls from counter [k] return [k, k+1, ..., k+n-1], as long as the
    numbers stay below 2^64. *)
Lemma allocate_from (n : nat) : ∀ store k,
  stored_counter ak store = Some k →
  k + Z.of_nat n ≤ uint64_modulus →
  ∃ store',
    allocate ak n store = Return (map (λ i, k + Z.of_nat i) (seq 0 n)) store' ∧
    stored_counter ak store' = Some (uint64_add k (Z.of_nat n)).
Proof.
  induction n as [|n IH]; intros store k Hk Hbound.
  - exists store. split; [reflexivity|].
    rewrite Hk. f_equal. simpl. rewrite uint64_add_small; [lia|].
    apply stored_counter_range in Hk. u64.
  - pose proof (stored_counter_range _ _ Hk) as Hrange.
    destruct (GetNextAccountNumber_step store k Hk) as (bz & _ & Hu & Hstep).
    change (allocate ak (S n)) with
      (bind (GetNextAccountNumber ak)
         (λ x, bind (allocate ak n) (λ xs, ret (x :: xs)))).
    unfold bind at 1. rewrite Hstep.
    destruct (Nat.eq_dec n 0%nat) as [->|Hn].
    + (* the last call may store a wrapped successor *)
      exists (<[GlobalAccountNumberKey := bz]> store). split.
      * cbn. do 2 f_equal. lia.
      * now apply stored_counter_insert.
    + rewrite uint64_add_small in Hu by u64.
      destruct (IH (<[GlobalAccountNumberKey := bz]> store) (k + 1)) as (store' & Hrun & Hc').
      * now apply stored_counter_insert.
      * u64.
      * exists store'. split.
        -- unfold bind, ret. rewrite Hrun.
           f_equal. cbn [seq map]. f_equal; [lia|].
           rewrite <- seq_shift, map_map. apply map_ext. intros i. lia.
        -- rewrite Hc'. f_equal. unfold uint64_add. f_equal. lia.
Qed.

End Allocator.

(** ** The wire format round-trips *)

Lemma Z_of_byte_of_Z z : Z_of_byte (byte_of_Z z) = z mod 256.
Proof.
  unfold Z_of_byte, byte_of_Z.
  assert (Hr : 0 ≤ z mod 256 < 256) by (apply Z.mod_pos_bound; lia).
  destruct (Byte.of_N (Z.to_N (z mod 256))) as [b|] eqn:E.
  - apply Byte.to_of_N in E. simpl. rewrite E. lia.
  - apply Byte.of_N_None_iff in E. lia.
Qed.

Lemma Z_of_byte_nonneg b : 0 ≤ Z_of_byte b.
Proof. unfold Z_of_byte. lia. Qed.

Lemma get_varint_low n rest :
  0 ≤ n < 128 → get_varint (byte_of_Z n :: rest) = Some (n, rest).
Proof.
  intros Hn. cbn [get_varint]. rewrite Z_of_byte_of_Z.
  rewrite (Z.mod_small n 256) by lia.
  destruct (Z.ltb_spec n 128); [reflexivity | lia].
Qed.

Lemma get_varint_high n bz :
  128 ≤ n →
  get_varint (byte_of_Z (n mod 128 + 128) :: bz) =
    match get_varint bz with
    | Some (hi, rest') => Some (n mod 128 + 128 * hi, rest')
    | None => None
    end.
Proof.
  intros Hn. cbn [get_varint]. rewrite Z_of_byte_of_Z.
  pose proof (Z.mod_pos_bound n 128 ltac:(lia)) as Hm.
  rewrite (Z.mod_small (n mod 128 + 128) 256) by lia.
  destruct (Z.ltb_spec (n mod 128 + 128) 128); [lia|].
  destruct (get_varint bz) as [[hi rest']|]; [|reflexivity].
  do 2 f_equal. lia.
Qed.

Lemma get_put_varint_fuel fuel : ∀ n rest,
  0 ≤ n < 2 ^ (Z.of_nat fuel + 1) →
  get_varint (put_varint_fuel fuel n ++ rest) = Some (n, rest).
Proof.
  induction fuel as [|fuel IH]; intros n rest Hn.
  - cbn [put_varint_fuel app]. apply get_varint_low.
    change (2 ^ (Z.of_nat 0 + 1)) with 2 in Hn. lia.
  - cbn [put_varint_fuel]. destruct (Z.ltb_spec n 128) as [Hlt|Hge].
    + cbn [app]. apply get_varint_low. lia.
    + cbn [app]. rewrite get_varint_high by exact Hge.
      rewrite IH.
      * do 2 f_equal. pose proof (Z.div_mod n 128 ltac:(lia)). lia.
      * split; [apply Z.div_pos; lia|].
        apply Z.div_lt_upper_bound; [lia|].
        replace (Z.of_nat (S fuel) + 1) with (Z.succ (Z.of_nat fuel + 1)) in Hn by lia.
        rewrite Z.pow_succ_r in Hn by lia. lia.
Qed.

Lemma get_put_varint n rest :
  0 ≤ n → get_varint (put_varint n ++ rest) = Some (n, rest).
Proof.
  intros Hn. unfold put_varint. apply get_put_varint_fuel.
  split; [exact Hn|].
  rewrite Z2Nat.id by apply Z.log2_nonneg.
  destruct (Z.eq_dec n 0) as [->|Hne]; [reflexivity|].
  apply Z.log2_spec. lia.
Qed.

Lemma get_varint_nonneg bz : ∀ n rest,
  get_varint bz = Some (n, rest) → 0 ≤ n.
Proof.
  induction bz as [|b bz IH]; intros n rest; cbn [get_varint]; [discriminate|].
  pose proof (Z_of_byte_nonneg b) as Hb.
  destruct (Z.ltb_spec (Z_of_byte b) 128) as [Hlt|Hge].
  - intros [= <- _]. exact Hb.
  - destruct (get_varint bz) as [[hi rest']|]; [|discriminate].
    intros [= <- _]. specialize (IH hi rest' eq_refl). lia.
Qed.

Lemma get_put_uint64 n rest :
  is_uint64 n → get_uint64 (put_varint n ++ rest) = Some (n, rest).
Proof.
  intros Hn. unfold get_uint64, pbind.
  rewrite get_put_varint by u64.
  destruct (Z.ltb_spec n uint64_modulus); [reflexivity | u64].
Qed.

Lemma get_put_bytes bz rest :
  get_bytes (put_bytes bz ++ rest) = Some (bz, rest).
Proof.
  unfold get_bytes, put_bytes, pbind.
  rewrite <- app_assoc, get_put_varint by lia.
  rewrite length_app.
  destruct (Z.ltb_spec (Z.of_nat (length bz + length rest)) (Z.of_nat (length bz))); [lia|].
  rewrite Nat2Z.id, take_app_length, drop_app_length. reflexivity.
Qed.

Lemma get_put_string s rest :
  get_string (put_string s ++ rest) = Some (s, rest).
Proof.
  unfold get_string, put_string, pbind, pret, bytes_of_string.
  rewrite get_put_bytes. now rewrite String.string_of_list_byte_of_string.
Qed.

Lemma get_put_option_bytes o rest :
  get_option_bytes (put_option_bytes o ++ rest) = Some (o, rest).
Proof.
  destruct o as [bz|]; cbn [put_option_bytes app get_option_bytes]; [|reflexivity].
  unfold pbind, pret. now rewrite get_put_bytes.
Qed.

Lemma get_put_strings_n l : ∀ rest,
  get_strings_n (length l) (concat (map put_string l) ++ rest) = Some (l, rest).
Proof.
  induction l as [|s l IH]; intros rest; [reflexivity|].
  cbn [length map concat get_strings_n]. unfold pbind, pret.
  rewrite <- app_assoc, get_put_string. now rewrite IH.
Qed.

Lemma get_put_strings l rest :
  get_strings (put_strings l ++ rest) = Some (l, rest).
Proof.
  unfold get_strings, put_strings, pbind.
  rewrite <- app_assoc, get_put_varint by lia.
  rewrite Nat2Z.id. apply get_put_strings_n.
Qed.

Lemma get_put_BaseAccount b rest :
  wf_base b → get_BaseAccount (put_BaseAccount b ++ rest) = Some (b, rest).
Proof.
  intros [Hnum Hseq]. unfold get_BaseAccount, put_BaseAccount, pbind, pret.
  rewrite <- !app_assoc.
  rewrite get_put_bytes, get_put_option_bytes.
  rewrite get_put_uint64 by exact Hnum.
  rewrite get_put_uint64 by exact Hseq.
  now destruct b.
Qed.

Lemma get_put_ModuleAccount m rest :
  wf_base (Base m) → get_ModuleAccount (put_ModuleAccount m ++ rest) = Some (m, rest).
Proof.
  intros Hwf. unfold get_ModuleAccount, put_ModuleAccount, pbind, pret.
  rewrite <- !app_assoc.
  rewrite get_put_BaseAccount by exact Hwf.
  rewrite get_put_string, get_put_strings.
  now destruct m.
Qed.

Lemma get_put_AccountI acc rest :
  wf_account acc → get_AccountI (put_AccountI acc ++ rest) = Some (acc, rest).
Proof.
  intros Hwf. unfold get_AccountI, pbind, pret.
  destruct acc as [b|m]; cbn [put_AccountI]; rewrite <- app_assoc, get_put_string.
  - rewrite String.eqb_refl. now rewrite get_put_BaseAccount.
  - replace (String.eqb ModuleAccount_url BaseAccount_url) with false by reflexivity.
    rewrite String.eqb_refl. now rewrite get_put_ModuleAccount.
Qed.

Lemma decode_all_put {A} (p : parser A) what (enc : bytes) (a : A) :
  p (enc ++ []) = Some (a, []) → decode_all p what enc = Ok a.
Proof. rewrite app_nil_r. unfold decode_all. now intros ->. Qed.

(** The wire format is a codec the keeper can rely on. *)
Lemma WireCodec_laws : CodecLaws WireCodec.
Proof.
  split.
  - intros v Hv. exists (put_varint v). split; [reflexivity|].
    cbn [Unmarshal WireCodec]. apply decode_all_put. now apply get_put_uint64.
  - intros bz v. cbn [Unmarshal WireCodec]. unfold decode_all, get_uint64, pbind, pret, pfail.
    destruct (get_varint bz) as [[n rest]|] eqn:E; [|discriminate].
    apply get_varint_nonneg in E.
    destruct (Z.ltb_spec n uint64_modulus); [|discriminate].
    destruct rest; [|discriminate].
    intros [= <-]. split; assumption.
  - intros acc Hwf. exists (put_AccountI acc). split; [reflexivity|].
    cbn [UnmarshalInterface WireCodec]. apply decode_all_put. now apply get_put_AccountI.
Qed.

Lemma sample_keeper_laws : CodecLaws (cdc sample_keeper).
Proof. exact WireCodec_laws. Qed.

(** ** Account numbers *)

(** C1: [GetNextAccountNumber] reads the stored global counter, an absent
    counter counting as zero, returns that value and persists the counter
    plus one; consequently [N] allocation calls in sequence, from a store
    with no counter, return exactly 0, 1, ..., N-1 in issuance order, with
    no repeats.  Account numbers are unsigned 64-bit, so [N] ranges up to
    2^64. *)
Theorem GetNextAccountNumber_issues_consecutive
    (ak : accountKeeper) (laws : CodecLaws (cdc ak)) :
  (∀ store c,
     stored_counter ak store = Some c →
     ∃ bz,
       Marshal (cdc ak) (uint64_add c 1) = Ok bz ∧
       Unmarshal (cdc ak) bz = Ok (uint64_add c 1) ∧
       GetNextAccountNumber ak store = Return c (<[GlobalAccountNumberKey := bz]> store)) ∧
  (∀ (N : nat) store,
     store !! GlobalAccountNumberKey = None →
     Z.of_nat N ≤ uint64_modulus →
     ∃ store',
       allocate ak N store = Return (map Z.of_nat (seq 0 N)) store' ∧
       NoDup (map Z.of_nat (seq 0 N))).
Proof.
  split.
  - intros store c. now apply GetNextAccountNumber_step.
  - intros N store Hnone Hbound.
    destruct (allocate_from ak laws N store 0) as (store' & Hrun & _).
    + unfold stored_counter. now rewrite Hnone.
    + lia.
    + exists store'. split.
      * rewrite Hrun. f_equal.
      * apply NoDup_fmap_2; [intros x y; lia | apply NoDup_seq].
Qed.

Lemma GetNextAccountNumber_issues_consecutive_witness :
  ∃ store',
    allocate sample_keeper 3 ∅ = Return [0; 1; 2] store' ∧ NoDup [0; 1; 2].
Proof.
  destruct (GetNextAccountNumber_issues_consecutive sample_keeper sample_keeper_laws)
    as [_ Hseq].
  apply (Hseq 3%nat ∅).
  - reflexivity.
  - unfold uint64_modulus. lia.
Defined.

(** ** Storage keys are namespaced *)

Lemma AddressStoreKey_not_counter addr : AddressStoreKey addr ≠ GlobalAccountNumberKey.
Proof. discriminate. Qed.

Lemma AccountNumberStoreKey_not_address n addr :
  AccountNumberStoreKey n ≠ AddressStoreKey addr.
Proof. discriminate. Qed.

Lemma AccountNumberStoreKey_not_counter n :
  AccountNumberStoreKey n ≠ GlobalAccountNumberKey.
Proof. discriminate. Qed.

Lemma AddressStoreKey_inj addr1 addr2 :
  AddressStoreKey addr1 = AddressStoreKey addr2 → addr1 = addr2.
Proof. unfold AddressStoreKey. apply app_inv_head. Qed.

(** ** The permission table *)

Section Table.

Variable AddressHash : bytes → bytes.
Variable c : BinaryCodec.
Variable maccPerms : gmap string (list string).

Local Abbreviation ak := (NewAccountKeeper AddressHash c maccPerms).

(** The table holds exactly the configured modules, each with its derived
    address and its permissions as configured. *)
Lemma permAddrs_lookup name :
  permAddrs ak !! name = NewPermissionsForAddress AddressHash name <$> maccPerms !! name.
Proof.
  cbn [permAddrs NewAccountKeeper].
  apply (map_fold_weak_ind
           (λ r m, r !! name = NewPermissionsForAddress AddressHash name <$> m !! name)).
  - now rewrite !lookup_empty.
  - intros i x m r Hi IH.
    destruct (decide (i = name)) as [->|Hne].
    + now rewrite !lookup_insert_eq.
    + now rewrite !lookup_insert_ne.
Qed.

Lemma HasPermission_in_spec perms permission :
  HasPermission_in perms permission = true ↔ permission ∈ perms.
Proof.
  induction perms as [|perm rest IH]; cbn [HasPermission_in].
  - split; [discriminate | intros H; inversion H].
  - destruct (String.eqb_spec perm permission) as [->|Hne].
    + split; [intros _; left | reflexivity].
    + rewrite IH. split; [now right|].
      intros H. inversion H; [congruence | assumption].
Qed.

Local Abbreviation declared := (declared_in maccPerms).

Lemma HasPermission_declared name permission :
  HasPermission (default zero_PermissionsForAddress (permAddrs ak !! name)) permission = true
  ↔ declared name permission.
Proof.
  rewrite permAddrs_lookup. unfold declared_in, HasPermission.
  destruct (maccPerms !! name) as [perms|]; cbn.
  - rewrite HasPermission_in_spec. split.
    + intros H. now exists perms.
    + now intros (? & [= <-] & H).
  - split; [discriminate | now intros (? & ? & _)].
Qed.

Lemma ValidatePermissions_loop_None pa perms :
  ValidatePermissions_loop pa perms = None ↔
  ∀ perm, perm ∈ perms → HasPermission pa perm = true.
Proof.
  induction perms as [|perm rest IH]; cbn [ValidatePermissions_loop].
  - split; [intros _ perm H; inversion H | reflexivity].
  - destruct (HasPermission pa perm) eqn:E; cbn [negb].
    + rewrite IH. split.
      * intros H q Hq. inversion Hq; subst; [exact E | now apply H].
      * intros H q Hq. apply H. now right.
    + split; [discriminate|].
      intros H. specialize (H perm ltac:(left)). congruence.
Qed.

Lemma ValidatePermissions_loop_Some pa perms e :
  ValidatePermissions_loop pa perms = Some e →
  ∃ perm, e = ErrInvalidPermission perm ∧ perm ∈ perms ∧ HasPermission pa perm = false.
Proof.
  induction perms as [|perm rest IH]; cbn [ValidatePermissions_loop]; [discriminate|].
  destruct (HasPermission pa perm) eqn:E; cbn [negb].
  - intros H. destruct (IH H) as (q & -> & Hq & Hf). exists q. repeat split; [now right | exact Hf].
  - intros [= <-]. exists perm. repeat split; [left | exact E].
Qed.

(** C3: [ValidatePermissions] returns no error if and only if every
    permission in the account's list is declared for the account's module
    name in the table built at construction; when it does return an error,
    the error is the invalid-permission error for a permission of the
    account that the table does not declare. *)
Theorem ValidatePermissions_iff_declared (macc : ModuleAccount) :
  (ValidatePermissions ak macc = None ↔
     ∀ perm, perm ∈ Permissions macc → declared (Name macc) perm) ∧
  ((∃ perm, perm ∈ Permissions macc ∧ ¬ declared (Name macc) perm) →
     ∃ perm, ValidatePermissions ak macc = Some (ErrInvalidPermission perm) ∧
             perm ∈ Permissions macc ∧ ¬ declared (Name macc) perm).
Proof.
  unfold ValidatePermissions. split.
  - rewrite ValidatePermissions_loop_None.
    split; intros H perm Hperm; apply HasPermission_declared; now apply H.
  - intros (perm & Hperm & Hnot).
    destruct (ValidatePermissions_loop _ (Permissions macc)) as [e|] eqn:E.
    + destruct (ValidatePermissions_loop_Some _ _ _ E) as (q & -> & Hq & Hf).
      exists q. repeat split; [exact Hq|].
      rewrite <- HasPermission_declared, Hf. discriminate.
    + exfalso. apply Hnot. apply HasPermission_declared.
      now apply (proj1 (ValidatePermissions_loop_None _ _) E).
Qed.

(** C8: for a configured module name, [GetModuleAddress] and
    [GetModuleAddressAndPermissions] return the module's derived address
    (and its permissions as configured); for any other name they return the
    nil address (and no permissions). *)
Theorem GetModuleAddress_known_or_nil (moduleName : string) :
  match maccPerms !! moduleName with
  | Some perms =>
      GetModuleAddress ak moduleName = Some (NewModuleAddress AddressHash moduleName) ∧
      GetModuleAddressAndPermissions ak moduleName =
        (Some (NewModuleAddress AddressHash moduleName), perms)
  | None =>
      GetModuleAddress ak moduleName = None ∧
      GetModuleAddressAndPermissions ak moduleName = (None, [])
  end.
Proof.
  unfold GetModuleAddress, GetModuleAddressAndPermissions.
  rewrite permAddrs_lookup.
  destruct (maccPerms !! moduleName) as [perms|]; cbn; split; reflexivity.
Qed.

End Table.

(** ** Reading and writing accounts *)

Section Accounts.

Variable ak : accountKeeper.

Lemma GetAccount_absent store addr :
  no_account_stored store addr → GetAccount ak addr store = Return None store.
Proof. intros H. unfold GetAccount. unfold_M. now rewrite H. Qed.

Lemma GetAccount_stored store addr acc :
  account_stored ak store addr acc → GetAccount ak addr store = Return (Some acc) store.
Proof.
  intros (bz & Hbz & Hdec). unfold GetAccount, decodeAccount. unfold_M.
  now rewrite Hbz, Hdec.
Qed.

Lemma GetAccount_corrupt store addr bz e :
  store !! AddressStoreKey addr = Some bz →
  UnmarshalAccount ak bz = Err e →
  GetAccount ak addr store = Panic e.
Proof.
  intros Hbz Hdec. unfold GetAccount, decodeAccount. unfold_M.
  now rewrite Hbz, Hdec.
Qed.

(** [SetAccount] writes the primary entry and then the secondary one; the
    account can be read back. *)
Lemma SetAccount_stores store acc :
  CodecLaws (cdc ak) → wf_account acc →
  ∃ bz,
    SetAccount ak acc store =
      Return tt (<[AccountNumberStoreKey (GetAccountNumber acc) := GetAddress acc]>
                   (<[AddressStoreKey (GetAddress acc) := bz]> store)) ∧
    UnmarshalAccount ak bz = Ok acc.
Proof.
  intros laws Hwf.
  destruct (UnmarshalInterface_MarshalInterface _ laws acc Hwf) as (bz & Hm & Hu).
  exists bz. split; [|exact Hu].
  unfold SetAccount, MarshalAccount. rewrite Hm. reflexivity.
Qed.

Lemma account_stored_after_SetAccount store acc bz :
  UnmarshalAccount ak bz = Ok acc →
  account_stored ak
    (<[AccountNumberStoreKey (GetAccountNumber acc) := GetAddress acc]>
       (<[AddressStoreKey (GetAddress acc) := bz]> store))
    (GetAddress acc) acc.
Proof.
  intros Hu. exists bz. split; [|exact Hu].
  rewrite lookup_insert_ne by apply AccountNumberStoreKey_not_address.
  apply lookup_insert_eq.
Qed.

(** What was saved is what is read: [GetAccount] after [SetAccount] returns
    the record, and the secondary entry leads from its number to its
    address. *)
Lemma GetAccount_SetAccount store acc :
  CodecLaws (cdc ak) → wf_account acc →
  ∃ store',
    SetAccount ak acc store = Return tt store' ∧
    GetAccount ak (GetAddress acc) store' = Return (Some acc) store' ∧
    store' !! AccountNumberStoreKey (GetAccountNumber acc) = Some (GetAddress acc).
Proof.
  intros laws Hwf.
  destruct (SetAccount_stores store acc laws Hwf) as (bz & Hset & Hu).
  eexists. split; [exact Hset|]. split.
  - apply GetAccount_stored. now apply account_stored_after_SetAccount.
  - apply lookup_insert_eq.
Qed.

(** C6: where no account is stored at an address, [GetSequence] and
    [GetPubKey] each return the unknown-address error ("account does not
    exist") and no value; where an account is stored there, they return
    that account's sequence number and public key, with no error. *)
Theorem GetSequence_GetPubKey_need_account (store : KVStore) (addr : bytes) :
  (no_account_stored store addr →
     GetSequence ak addr store = Return (Err (ErrUnknownAddress addr)) store ∧
     GetPubKey ak addr store = Return (Err (ErrUnknownAddress addr)) store) ∧
  (∀ acc, account_stored ak store addr acc →
     GetSequence ak addr store = Return (Ok (GetSequence_of acc)) store ∧
     GetPubKey ak addr store = Return (Ok (GetPubKey_of acc)) store).
Proof.
  split.
  - intros H. unfold GetSequence, GetPubKey, bind.
    rewrite (GetAccount_absent _ _ H). split; reflexivity.
  - intros acc H. unfold GetSequence, GetPubKey, bind.
    rewrite (GetAccount_stored _ _ _ H). split; reflexivity.
Qed.

(** C7: decoding stored bytes never partially succeeds.  [decodeAccount]
    returns exactly what the codec decoded, or panics with the codec's
    error; [GetNextAccountNumber] panics with the codec's error when the
    stored counter does not decode, and leaves no write behind. *)
Theorem decode_failure_is_fatal :
  (∀ bz store,
     match UnmarshalAccount ak bz with
     | Ok acc => decodeAccount ak bz store = Return acc store
     | Err err => decodeAccount ak bz store = Panic err
     end) ∧
  (∀ bz err store,
     store !! GlobalAccountNumberKey = Some bz →
     Unmarshal (cdc ak) bz = Err err →
     GetNextAccountNumber ak store = Panic err).
Proof.
  split.
  - intros bz store. unfold decodeAccount.
    destruct (UnmarshalAccount ak bz); reflexivity.
  - intros bz err store Hbz Hdec. unfold GetNextAccountNumber. unfold_M.
    now rewrite Hbz, Hdec.
Qed.

End Accounts.

(** ** Module accounts *)

Section ModuleAccounts.

Variable AddressHash : bytes → bytes.
Variable c : BinaryCodec.
Variable maccPerms : gmap string (list string).

Local Abbreviation ak := (NewAccountKeeper AddressHash c maccPerms).
Local Abbreviation module_address := (NewModuleAddress AddressHash).

Lemma GetModuleAddressAndPermissions_configured moduleName perms :
  maccPerms !! moduleName = Some perms →
  GetModuleAddressAndPermissions ak moduleName = (Some (module_address moduleName), perms).
Proof.
  intros H. unfold GetModuleAddressAndPermissions.
  now rewrite permAddrs_lookup, H.
Qed.

Lemma GetModuleAddressAndPermissions_unknown moduleName :
  maccPerms !! moduleName = None →
  GetModuleAddressAndPermissions ak moduleName = (None, []).
Proof.
  intros H. unfold GetModuleAddressAndPermissions.
  now rewrite permAddrs_lookup, H.
Qed.

(** The account is already stored: it is returned if it is a module
    account, and nothing is written. *)
Lemma GetModuleAccountAndPermissions_stored moduleName perms store macc :
  maccPerms !! moduleName = Some perms →
  account_stored ak store (module_address moduleName) (ModuleAcc macc) →
  GetModuleAccountAndPermissions AddressHash ak moduleName store =
    Return (Some macc, perms) store.
Proof.
  intros Hcfg Hst. unfold GetModuleAccountAndPermissions.
  rewrite (GetModuleAddressAndPermissions_configured _ _ Hcfg).
  unfold bind. now rewrite (GetAccount_stored _ _ _ _ Hst).
Qed.

Lemma GetModuleAccountAndPermissions_mismatch moduleName perms store b :
  maccPerms !! moduleName = Some perms →
  account_stored ak store (module_address moduleName) (BaseAcc b) →
  GetModuleAccountAndPermissions AddressHash ak moduleName store =
    Panic (ErrMsg "account is not a module account").
Proof.
  intros Hcfg Hst. unfold GetModuleAccountAndPermissions.
  rewrite (GetModuleAddressAndPermissions_configured _ _ Hcfg).
  unfold bind. now rewrite (GetAccount_stored _ _ _ _ Hst).
Qed.

(** No account is stored: one is created with the next number and saved. *)
Lemma GetModuleAccountAndPermissions_creates moduleName perms store n :
  CodecLaws c →
  maccPerms !! moduleName = Some perms →
  no_account_stored store (module_address moduleName) →
  stored_counter ak store = Some n →
  let macc :=
    {| Base := {| Address := module_address moduleName; PubKey := None;
                  AccountNumber := n; Sequence := 0 |};
       Name := moduleName;
       Permissions := perms |} in
  ∃ bz_counter bz_account,
    Unmarshal c bz_counter = Ok (uint64_add n 1) ∧
    UnmarshalAccount ak bz_account = Ok (ModuleAcc macc) ∧
    GetModuleAccountAndPermissions AddressHash ak moduleName store =
      Return (Some macc, perms)
        (<[AccountNumberStoreKey n := module_address moduleName]>
           (<[AddressStoreKey (module_address moduleName) := bz_account]>
              (<[GlobalAccountNumberKey := bz_counter]> store))).
Proof.
  intros laws Hcfg Habsent Hn macc.
  destruct (GetNextAccountNumber_step ak laws store n Hn) as (bzc & _ & Huc & Hstep).
  assert (Hwf : wf_account (ModuleAcc macc)).
  { split; cbn; [exact (stored_counter_range ak laws _ _ Hn) | u64]. }
  destruct (SetAccount_stores ak (<[GlobalAccountNumberKey := bzc]> store) _ laws Hwf)
    as (bza & Hset & Hua).
  exists bzc, bza. split; [exact Huc|]. split; [exact Hua|].
  unfold GetModuleAccountAndPermissions.
  rewrite (GetModuleAddressAndPermissions_configured _ _ Hcfg).
  unfold bind at 1. rewrite (GetAccount_absent _ _ _ Habsent).
  unfold NewAccount, bind at 1. unfold bind at 1. rewrite Hstep.
  cbn [ret SetAccountNumber NewEmptyModuleAccount Base Name Permissions].
  unfold set_number. cbn [Address PubKey Sequence].
  fold macc. unfold SetModuleAccount, bind. rewrite Hset. reflexivity.
Qed.

(** C2: for a module name in the permission table, [GetModuleAccount]
    returns the account stored at the module's derived address when it is a
    module account, and panics when it is an account of another variant;
    when no account is stored there, it creates a module account with
    exactly the module's declared permissions, gives it the next account
    number, persists it, and returns it.  The next account number is the
    one the stored counter yields; the codec is one the keeper can rely
    on. *)
Theorem GetModuleAccount_fetches_or_creates (moduleName : string) (perms : list string) :
  CodecLaws c →
  maccPerms !! moduleName = Some perms →
  (∀ store macc,
     account_stored ak store (module_address moduleName) (ModuleAcc macc) →
     GetModuleAccount AddressHash ak moduleName store = Return (Some macc) store) ∧
  (∀ store b,
     account_stored ak store (module_address moduleName) (BaseAcc b) →
     GetModuleAccount AddressHash ak moduleName store =
       Panic (ErrMsg "account is not a module account")) ∧
  (∀ store n,
     no_account_stored store (module_address moduleName) →
     stored_counter ak store = Some n →
     ∃ macc store',
       GetModuleAccount AddressHash ak moduleName store = Return (Some macc) store' ∧
       macc = {| Base := {| Address := module_address moduleName; PubKey := None;
                            AccountNumber := n; Sequence := 0 |};
                 Name := moduleName;
                 Permissions := perms |} ∧
       account_stored ak store' (module_address moduleName) (ModuleAcc macc) ∧
       store' !! AccountNumberStoreKey n = Some (module_address moduleName) ∧
       stored_counter ak store' = Some (uint64_add n 1)).
Proof.
  intros laws Hcfg. split; [|split].
  - intros store macc Hst. unfold GetModuleAccount, bind.
    now rewrite (GetModuleAccountAndPermissions_stored _ _ _ _ Hcfg Hst).
  - intros store b Hst. unfold GetModuleAccount, bind.
    now rewrite (GetModuleAccountAndPermissions_mismatch _ _ _ _ Hcfg Hst).
  - intros store n Habsent Hn.
    destruct (GetModuleAccountAndPermissions_creates _ _ _ _ laws Hcfg Habsent Hn)
      as (bzc & bza & Huc & Hua & Hrun).
    eexists. eexists. split; [|split; [reflexivity|split; [|split]]].
    + unfold GetModuleAccount, bind. rewrite Hrun. reflexivity.
    + exact (account_stored_after_SetAccount ak
               (<[GlobalAccountNumberKey := bzc]> store) _ bza Hua).
    + apply lookup_insert_eq.
    + unfold stored_counter.
      rewrite lookup_insert_ne by apply AccountNumberStoreKey_not_counter.
      rewrite lookup_insert_ne by apply AddressStoreKey_not_counter.
      rewrite lookup_insert_eq. cbn [cdc NewAccountKeeper]. now rewrite Huc.
Qed.

(** A call that returns leaves the account stored, whichever path it
    took. *)
Lemma GetModuleAccountAndPermissions_returns moduleName perms store r store1 :
  CodecLaws c →
  maccPerms !! moduleName = Some perms →
  GetModuleAccountAndPermissions AddressHash ak moduleName store = Return r store1 →
  ∃ macc,
    r = (Some macc, perms) ∧
    account_stored ak store1 (module_address moduleName) (ModuleAcc macc) ∧
    (account_stored ak store (module_address moduleName) (ModuleAcc macc) ∧ store1 = store
     ∨ no_account_stored store (module_address moduleName)).
Proof.
  intros laws Hcfg Hrun.
  destruct (store !! AddressStoreKey (module_address moduleName)) as [bz|] eqn:Hbz.
  - (* an entry exists *)
    destruct (UnmarshalAccount ak bz) as [[b|macc]|e] eqn:Hdec.
    + rewrite (GetModuleAccountAndPermissions_mismatch _ perms store b Hcfg) in Hrun
        by (exists bz; auto).
      discriminate.
    + assert (Hst : account_stored ak store (module_address moduleName) (ModuleAcc macc))
        by (exists bz; auto).
      rewrite (GetModuleAccountAndPermissions_stored _ _ _ _ Hcfg Hst) in Hrun.
      injection Hrun as <- <-. exists macc. auto.
    + unfold GetModuleAccountAndPermissions in Hrun.
      rewrite (GetModuleAddressAndPermissions_configured _ _ Hcfg) in Hrun.
      unfold bind in Hrun. rewrite (GetAccount_corrupt _ _ _ _ _ Hbz Hdec) in Hrun.
      discriminate.
  - (* no entry: the account is created, if the counter can be read *)
    destruct (stored_counter ak store) as [n|] eqn:Hn.
    + destruct (GetModuleAccountAndPermissions_creates _ _ _ _ laws Hcfg Hbz Hn)
        as (bzc & bza & _ & Hua & Hrun').
      rewrite Hrun' in Hrun. injection Hrun as <- <-.
      eexists. split; [reflexivity|]. split; [|now right].
      exact (account_stored_after_SetAccount ak
               (<[GlobalAccountNumberKey := bzc]> store) _ bza Hua).
    + exfalso. unfold stored_counter in Hn.
      destruct (store !! GlobalAccountNumberKey) as [bzc|] eqn:Hc; [|discriminate].
      destruct (Unmarshal (cdc ak) bzc) as [v|e] eqn:Hdec; [discriminate|].
      unfold GetModuleAccountAndPermissions in Hrun.
      rewrite (GetModuleAddressAndPermissions_configured _ _ Hcfg) in Hrun.
      unfold bind at 1 in Hrun. rewrite (GetAccount_absent _ _ _ Hbz) in Hrun.
      unfold NewAccount, bind at 1 in Hrun. unfold bind at 1 in Hrun.
      unfold GetNextAccountNumber in Hrun. unfold_M.
      rewrite Hc, Hdec in Hrun. discriminate.
Qed.

(** C4: [GetModuleAccount] is idempotent for a configured module name.  A
    second call in the same scope returns the same module account, so the
    same address and the same account number, and writes nothing: the store
    is as the first call left it.  From a store without the account (and
    with a counter that can be read), the first call is the one that creates
    and persists it. *)
Theorem GetModuleAccount_idempotent (moduleName : string) (perms : list string) :
  CodecLaws c →
  maccPerms !! moduleName = Some perms →
  (∀ store r store1,
     GetModuleAccount AddressHash ak moduleName store = Return r store1 →
     ∃ macc,
       r = Some macc ∧
       GetModuleAccount AddressHash ak moduleName store1 = Return (Some macc) store1) ∧
  (∀ store n,
     no_account_stored store (module_address moduleName) →
     stored_counter ak store = Some n →
     ∃ macc store1,
       GetModuleAccount AddressHash ak moduleName store = Return (Some macc) store1 ∧
       Address (Base macc) = module_address moduleName ∧
       AccountNumber (Base macc) = n ∧
       account_stored ak store1 (module_address moduleName) (ModuleAcc macc) ∧
       GetModuleAccount AddressHash ak moduleName store1 = Return (Some macc) store1).
Proof.
  intros laws Hcfg. split.
  - intros store r store1 Hrun. unfold GetModuleAccount, bind in Hrun.
    destruct (GetModuleAccountAndPermissions AddressHash ak moduleName store)
      as [r' store'|e] eqn:Hfirst; [|discriminate].
    cbn [ret] in Hrun. injection Hrun as <- <-.
    destruct (GetModuleAccountAndPermissions_returns _ _ _ _ _ laws Hcfg Hfirst)
      as (macc & -> & Hst & _).
    exists macc. split; [reflexivity|].
    unfold GetModuleAccount, bind.
    now rewrite (GetModuleAccountAndPermissions_stored _ _ _ _ Hcfg Hst).
  - intros store n Habsent Hn.
    destruct (GetModuleAccountAndPermissions_creates _ _ _ _ laws Hcfg Habsent Hn)
      as (bzc & bza & _ & Hua & Hrun).
    eexists. eexists.
    assert (Hst : account_stored ak
              (<[AccountNumberStoreKey n := module_address moduleName]>
                 (<[AddressStoreKey (module_address moduleName) := bza]>
                    (<[GlobalAccountNumberKey := bzc]> store)))
              (module_address moduleName)
              (ModuleAcc {| Base := {| Address := module_address moduleName; PubKey := None;
                                       AccountNumber := n; Sequence := 0 |};
                            Name := moduleName; Permissions := perms |})).
    { exact (account_stored_after_SetAccount ak
               (<[GlobalAccountNumberKey := bzc]> store) _ bza Hua). }
    split; [|split; [|split; [|split]]].
    + unfold GetModuleAccount, bind. rewrite Hrun. reflexivity.
    + reflexivity.
    + reflexivity.
    + exact Hst.
    + unfold GetModuleAccount, bind.
      now rewrite (GetModuleAccountAndPermissions_stored _ _ _ _ Hcfg Hst).
Qed.

(** C9: for a module name that is not in the permission table,
    [GetModuleAccountAndPermissions] returns nil with an empty permission
    list and [GetModuleAccount] returns nil; neither panics, and the store
    is left as it was: no account is created, no number allocated. *)
Theorem GetModuleAccount_unknown_module (moduleName : string) (store : KVStore) :
  maccPerms !! moduleName = None →
  GetModuleAccountAndPermissions AddressHash ak moduleName store = Return (None, []) store ∧
  GetModuleAccount AddressHash ak moduleName store = Return None store.
Proof.
  intros Hcfg.
  assert (H : GetModuleAccountAndPermissions AddressHash ak moduleName store
              = Return (None, []) store).
  { unfold GetModuleAccountAndPermissions.
    now rewrite (GetModuleAddressAndPermissions_unknown _ Hcfg). }
  split; [exact H|].
  unfold GetModuleAccount, bind. now rewrite H.
Qed.

End ModuleAccounts.

(** ** The account codec round-trips *)

(** C5: for every supported account variant, base account and module
    account, decoding an encoded record gives back the record, field for
    field: [UnmarshalAccount (MarshalAccount record) = record]. *)
Theorem UnmarshalAccount_MarshalAccount (ak : accountKeeper) (record : AccountI) :
  cdc ak = WireCodec →
  wf_account record →
  ∃ bz, MarshalAccount ak record = Ok bz ∧ UnmarshalAccount ak bz = Ok record.
Proof.
  intros Hcdc Hwf. unfold MarshalAccount, UnmarshalAccount. rewrite Hcdc.
  exists (put_AccountI record). split; [reflexivity|].
  cbn [UnmarshalInterface WireCodec]. apply decode_all_put.
  now apply get_put_AccountI.
Qed.

(** ** Group conversions *)

Lemma int32_small z : - 2 ^ 31 ≤ z < 2 ^ 31 → int32 z = z.
Proof. intros H. unfold int32. rewrite Z.mod_small; lia. Qed.

Lemma int64_small z : - 2 ^ 63 ≤ z < 2 ^ 63 → int64 z = z.
Proof. intros H. unfold int64. rewrite Z.mod_small; lia. Qed.

(** A UTC time within the timestamp range survives the passage through a
    protobuf timestamp. *)
Lemma AsTime_New t :
  utc_representable t → timestamppb.AsTime (timestamppb.New t) = t.
Proof.
  intros [Hloc [Hsec Hnsec]]. change (10 ^ 9) with 1000000000 in Hnsec.
  destruct t as [s ns l]. cbn [time.sec time.nsec time.loc] in *. subst l.
  unfold timestamppb.AsTime, timestamppb.New, timestamppb.GetSeconds, timestamppb.GetNanos,
    time.Unix_of, time.Nanosecond.
  cbn [timestamppb.Seconds timestamppb.Nanos time.sec time.nsec].
  rewrite (int64_small s) by lia. rewrite (int32_small ns) by lia.
  rewrite (int64_small s) by lia. rewrite (int64_small ns) by lia.
  unfold time.Unix. change (10 ^ 9) with 1000000000.
  destruct (Z.ltb_spec ns 0) as [?|_]; [lia|].
  destruct (Z.geb_spec ns 1000000000) as [?|_]; [lia|].
  cbn [orb]. rewrite (int32_small ns) by lia. reflexivity.
Qed.

(** C10: the Pulsar conversions are mutually inverse on valid data.  A
    [GroupInfo] whose [CreatedAt] is a UTC time that a protobuf timestamp
    can hold is unchanged by [GroupInfoToPulsar] followed by
    [GroupInfoFromPulsar]; likewise a [Vote] with such a [SubmitTime], under
    [VoteToPulsar] followed by [VoteFromPulsar]. *)
Theorem FromPulsar_ToPulsar :
  (∀ g : GroupInfo,
     utc_representable (GroupInfo_CreatedAt g) →
     GroupInfoFromPulsar (GroupInfoToPulsar g) = g) ∧
  (∀ v : Vote,
     utc_representable (Vote_SubmitTime v) →
     VoteFromPulsar (VoteToPulsar v) = v).
Proof.
  split.
  - intros g Hg. destruct g as [id admin version weight meta created].
    unfold GroupInfoFromPulsar, GroupInfoToPulsar. cbn in *.
    now rewrite AsTime_New.
  - intros v Hv. destruct v as [pid voter opt meta submitted].
    unfold VoteFromPulsar, VoteToPulsar, of_groupv1_VoteOption, to_groupv1_VoteOption.
    cbn in *. now rewrite AsTime_New.
Qed.

(** ** The statements at concrete inputs *)

(** The scenario of the spec's section 8: the first access to
    [fee_collector] on an empty store creates the module account at the
    derived address, with number 0 and permission [burner]. *)
Lemma GetModuleAccount_fetches_or_creates_witness :
  ∃ macc store',
    GetModuleAccount sample_AddressHash sample_keeper "fee_collector" ∅
      = Return (Some macc) store' ∧
    macc = {| Base := {| Address := NewModuleAddress sample_AddressHash "fee_collector";
                         PubKey := None; AccountNumber := 0; Sequence := 0 |};
              Name := "fee_collector";
              Permissions := ["burner"%string] |} ∧
    account_stored sample_keeper store'
      (NewModuleAddress sample_AddressHash "fee_collector") (ModuleAcc macc) ∧
    store' !! AccountNumberStoreKey 0
      = Some (NewModuleAddress sample_AddressHash "fee_collector") ∧
    stored_counter sample_keeper store' = Some (uint64_add 0 1).
Proof.
  destruct (GetModuleAccount_fetches_or_creates sample_AddressHash WireCodec
              sample_maccPerms "fee_collector" ["burner"%string] WireCodec_laws eq_refl)
    as (_ & _ & Hcreate).
  apply (Hcreate ∅ 0); reflexivity.
Defined.

Lemma GetModuleAccount_idempotent_witness :
  ∃ macc store1,
    GetModuleAccount sample_AddressHash sample_keeper "bonded_pool" ∅
      = Return (Some macc) store1 ∧
    Address (Base macc) = NewModuleAddress sample_AddressHash "bonded_pool" ∧
    AccountNumber (Base macc) = 0 ∧
    account_stored sample_keeper store1
      (NewModuleAddress sample_AddressHash "bonded_pool") (ModuleAcc macc) ∧
    GetModuleAccount sample_AddressHash sample_keeper "bonded_pool" store1
      = Return (Some macc) store1.
Proof.
  destruct (GetModuleAccount_idempotent sample_AddressHash WireCodec
              sample_maccPerms "bonded_pool" ["burner"%string; "staking"%string]
              WireCodec_laws eq_refl)
    as (_ & Htwice).
  apply (Htwice ∅ 0); reflexivity.
Defined.

Lemma GetModuleAccount_unknown_module_witness :
  GetModuleAccountAndPermissions sample_AddressHash sample_keeper "mint" ∅
    = Return (None, []) ∅ ∧
  GetModuleAccount sample_AddressHash sample_keeper "mint" ∅ = Return None ∅.
Proof.
  apply (GetModuleAccount_unknown_module sample_AddressHash WireCodec sample_maccPerms
           "mint" ∅).
  reflexivity.
Defined.

Lemma UnmarshalAccount_MarshalAccount_witness :
  (∃ bz, MarshalAccount sample_keeper (BaseAcc sample_BaseAccount) = Ok bz ∧
         UnmarshalAccount sample_keeper bz = Ok (BaseAcc sample_BaseAccount)) ∧
  (∃ bz, MarshalAccount sample_keeper (ModuleAcc sample_ModuleAccount) = Ok bz ∧
         UnmarshalAccount sample_keeper bz = Ok (ModuleAcc sample_ModuleAccount)).
Proof.
  split; apply UnmarshalAccount_MarshalAccount; try reflexivity;
    repeat split; vm_compute; congruence.
Defined.

Lemma GetSequence_GetPubKey_need_account_witness :
  (GetSequence sample_keeper [x0a; x0b; x0c] ∅
     = Return (Err (ErrUnknownAddress [x0a; x0b; x0c])) ∅ ∧
   GetPubKey sample_keeper [x0a; x0b; x0c] ∅
     = Return (Err (ErrUnknownAddress [x0a; x0b; x0c])) ∅) ∧
  (GetSequence sample_keeper [x0a; x0b; x0c] sample_store = Return (Ok 300) sample_store ∧
   GetPubKey sample_keeper [x0a; x0b; x0c] sample_store
     = Return (Ok (Some [x02; xff; x00])) sample_store).
Proof.
  split.
  - destruct (GetSequence_GetPubKey_need_account sample_keeper ∅ [x0a; x0b; x0c])
      as [Habsent _].
    apply Habsent. reflexivity.
  - destruct (GetSequence_GetPubKey_need_account sample_keeper sample_store [x0a; x0b; x0c])
      as [_ Hstored].
    apply (Hstored (BaseAcc sample_BaseAccount)).
    exists (put_AccountI (BaseAcc sample_BaseAccount)). split; vm_compute; reflexivity.
Defined.

Lemma decode_failure_is_fatal_witness :
  decodeAccount sample_keeper [xff] ∅ = Panic (ErrCodec "AccountI") ∧
  GetNextAccountNumber sample_keeper {[GlobalAccountNumberKey := [xff]]}
    = Panic (ErrCodec "UInt64Value").
Proof.
  destruct (decode_failure_is_fatal sample_keeper) as [Hacc Hctr].
  split.
  - exact (Hacc [xff] ∅).
  - apply (Hctr [xff]); reflexivity.
Defined.

Lemma FromPulsar_ToPulsar_witness :
  GroupInfoFromPulsar (GroupInfoToPulsar sample_GroupInfo) = sample_GroupInfo ∧
  VoteFromPulsar (VoteToPulsar sample_Vote) = sample_Vote.
Proof.
  destruct FromPulsar_ToPulsar as [Hgroup Hvote].
  split; [apply Hgroup | apply Hvote];
    (split; [reflexivity | repeat split; vm_compute; congruence]).
Defined.

(** The permission scenario of the spec's section 8: [burner] is declared
    for [fee_collector], [minter] is not. *)
Example ValidatePermissions_burner :
  ValidatePermissions sample_keeper sample_ModuleAccount = None.
Proof. vm_compute. reflexivity. Qed.

Example ValidatePermissions_minter :
  ValidatePermissions sample_keeper
    {| Base := Base sample_ModuleAccount; Name := "fee_collector";
       Permissions := ["minter"%string] |}
  = Some (ErrInvalidPermission "minter").
Proof. vm_compute. reflexivity. Qed.

Example GetModuleAddress_fee_collector :
  GetModuleAddress sample_keeper "fee_collector"
    = Some (NewModuleAddress sample_AddressHash "fee_collector") ∧
  GetModuleAddress sample_keeper "mint" = None.
Proof. split; vm_compute; reflexivity. Qed.

(** A time in another location comes back in UTC: the round trip of the
    conversions needs the UTC condition. *)
Example AsTime_New_Local :
  timestamppb.AsTime
    (timestamppb.New {| time.sec := 0; time.nsec := 0; time.loc := time.Local |})
  = {| time.sec := 0; time.nsec := 0; time.loc := time.UTC |}.
Proof. reflexivity. Qed.

(** * Further properties of the keeper *)

Section AllocatorMore.

Variable ak : accountKeeper.

(** A call that returns has read the counter it returns, and has written
    the counter key only. *)
Lemma GetNextAccountNumber_returns store c store' :
  GetNextAccountNumber ak store = Return c store' →
  stored_counter ak store = Some c ∧
  ∃ bz, Marshal (cdc ak) (uint64_add c 1) = Ok bz ∧
        store' = <[GlobalAccountNumberKey := bz]> store.
Proof.
  unfold GetNextAccountNumber, stored_counter. unfold_M.
  destruct (store !! GlobalAccountNumberKey) as [bz0|].
  - destruct (Unmarshal (cdc ak) bz0) as [v|e]; [|discriminate].
    destruct (Marshal (cdc ak) (uint64_add v 1)) as [bz|e] eqn:Hm; [|discriminate].
    intros [= <- <-]. split; [reflexivity|]. now exists bz.
  - destruct (Marshal (cdc ak) (uint64_add 0 1)) as [bz|e] eqn:Hm; [|discriminate].
    intros [= <- <-]. split; [reflexivity|]. now exists bz.
Qed.

(** X1: numbering continues from whatever counter is stored, and wraps.
    From a store whose counter reads [c], [N] allocations in sequence return
    [c], [c+1], ... reduced modulo 2^64, and leave the counter at [c+N]
    modulo 2^64: after 2^64-1 the numbers start again at 0. *)
Theorem allocate_continues_and_wraps (N : nat) (store : KVStore) (c : uint64) :
  CodecLaws (cdc ak) →
  stored_counter ak store = Some c →
  ∃ store',
    allocate ak N store =
      Return (map (λ i, (c + Z.of_nat i) mod uint64_modulus) (seq 0 N)) store' ∧
    stored_counter ak store' = Some ((c + Z.of_nat N) mod uint64_modulus).
Proof.
  intros laws. revert store c.
  induction N as [|N IH]; intros store c Hc.
  - exists store. split; [reflexivity|].
    rewrite Hc. f_equal. pose proof (stored_counter_range ak laws _ _ Hc).
    rewrite Z.mod_small; u64.
  - pose proof (stored_counter_range ak laws _ _ Hc) as Hrange.
    destruct (GetNextAccountNumber_step ak laws store c Hc) as (bz & _ & Hu & Hstep).
    destruct (IH (<[GlobalAccountNumberKey := bz]> store) (uint64_add c 1))
      as (store' & Hrun & Hc').
    { now apply stored_counter_insert. }
    exists store'. split.
    + change (allocate ak (S N)) with
        (bind (GetNextAccountNumber ak)
           (λ x, bind (allocate ak N) (λ xs, ret (x :: xs)))).
      unfold bind at 1. rewrite Hstep. unfold bind, ret. rewrite Hrun.
      f_equal. cbn [seq map]. f_equal.
      * rewrite Z.mod_small; u64.
      * rewrite <- seq_shift, map_map. apply map_ext. intros i.
        unfold uint64_add. rewrite Zplus_mod_idemp_l. f_equal. lia.
    + rewrite Hc'. f_equal. unfold uint64_add.
      rewrite Zplus_mod_idemp_l. f_equal. lia.
Qed.

(** X2: an allocation touches the counter and nothing else.  When
    [GetNextAccountNumber] returns, the number returned is the counter that
    was stored, the counter key now holds a value, and every other key of
    the store reads as before. *)
Theorem GetNextAccountNumber_writes_counter_only (store : KVStore) (c : uint64)
    (store' : KVStore) :
  GetNextAccountNumber ak store = Return c store' →
  stored_counter ak store = Some c ∧
  is_Some (store' !! GlobalAccountNumberKey) ∧
  ∀ key, key ≠ GlobalAccountNumberKey → store' !! key = store !! key.
Proof.
  intros Hrun.
  destruct (GetNextAccountNumber_returns _ _ _ Hrun) as (Hc & bz & _ & ->).
  split; [exact Hc|]. split.
  - rewrite lookup_insert_eq. eauto.
  - intros key Hne. now rewrite lookup_insert_ne.
Qed.

End AllocatorMore.

Lemma allocate_continues_and_wraps_witness :
  ∃ store',
    allocate sample_keeper 3 {[ GlobalAccountNumberKey := put_varint (2 ^ 64 - 2) ]} =
      Return [2 ^ 64 - 2; 2 ^ 64 - 1; 0] store' ∧
    stored_counter sample_keeper store' = Some 1.
Proof.
  apply (allocate_continues_and_wraps sample_keeper 3
           {[ GlobalAccountNumberKey := put_varint (2 ^ 64 - 2) ]} (2 ^ 64 - 2)
           sample_keeper_laws).
  vm_compute. reflexivity.
Defined.

Lemma GetNextAccountNumber_writes_counter_only_witness :
  stored_counter sample_keeper sample_store = Some 0 ∧
  is_Some (<[GlobalAccountNumberKey := put_varint 1]> sample_store !! GlobalAccountNumberKey) ∧
  ∀ key, key ≠ GlobalAccountNumberKey →
    <[GlobalAccountNumberKey := put_varint 1]> sample_store !! key = sample_store !! key.
Proof.
  apply (GetNextAccountNumber_writes_counter_only sample_keeper sample_store 0).
  vm_compute. reflexivity.
Defined.

(** ** Permissions, further *)

Section PermissionsMore.

Variable AddressHash : bytes → bytes.
Variable c : BinaryCodec.
Variable maccPerms : gmap string (list string).

Local Abbreviation ak := (NewAccountKeeper AddressHash c maccPerms).
Local Abbreviation declared := (declared_in maccPerms).

Lemma ValidatePermissions_loop_first pa l1 perm l2 :
  (∀ p, p ∈ l1 → HasPermission pa p = true) →
  HasPermission pa perm = false →
  ValidatePermissions_loop pa (l1 ++ perm :: l2) = Some (ErrInvalidPermission perm).
Proof.
  intros Hl1 Hperm. induction l1 as [|p l1 IH]; cbn [app ValidatePermissions_loop].
  - now rewrite Hperm.
  - rewrite (Hl1 p) by left. cbn [negb]. apply IH.
    intros q Hq. apply Hl1. now right.
Qed.

(** X3: the error names the first offending permission.  When the
    account's permissions, in order, are declared up to some permission that
    is not, [ValidatePermissions] returns the invalid-permission error for
    that one, whatever follows it. *)
Theorem ValidatePermissions_reports_first_undeclared
    (macc : ModuleAccount) (l1 : list string) (perm : string) (l2 : list string) :
  Permissions macc = l1 ++ perm :: l2 →
  (∀ p, p ∈ l1 → declared (Name macc) p) →
  ¬ declared (Name macc) perm →
  ValidatePermissions ak macc = Some (ErrInvalidPermission perm).
Proof.
  intros Hperms Hl1 Hperm. unfold ValidatePermissions. rewrite Hperms.
  apply ValidatePermissions_loop_first.
  - intros p Hp. apply HasPermission_declared. now apply Hl1.
  - destruct (HasPermission _ perm) eqn:E; [|reflexivity].
    exfalso. apply Hperm. now apply (HasPermission_declared AddressHash c maccPerms).
Qed.

(** X4: a module account whose name is not in the table validates exactly
    when it claims no permission at all; otherwise the error names its
    first permission. *)
Theorem ValidatePermissions_unknown_module (macc : ModuleAccount) :
  maccPerms !! Name macc = None →
  ValidatePermissions ak macc =
    match Permissions macc with
    | [] => None
    | perm :: _ => Some (ErrInvalidPermission perm)
    end.
Proof.
  intros Hcfg. unfold ValidatePermissions.
  rewrite permAddrs_lookup, Hcfg. cbn [fmap option_fmap option_map default].
  destruct (Permissions macc) as [|perm rest]; reflexivity.
Qed.

End PermissionsMore.

Lemma ValidatePermissions_reports_first_undeclared_witness :
  ValidatePermissions sample_keeper
    {| Base := Base sample_ModuleAccount; Name := "bonded_pool";
       Permissions := ["staking"; "minter"; "burner"; "other"]%string |}
  = Some (ErrInvalidPermission "minter").
Proof.
  apply (ValidatePermissions_reports_first_undeclared sample_AddressHash WireCodec
           sample_maccPerms _ ["staking"%string] "minter" ["burner"; "other"]%string).
  - reflexivity.
  - intros p Hp. apply list_elem_of_singleton in Hp as ->.
    exists ["burner"; "staking"]%string. split; [reflexivity|].
    right. left.
  - intros (perms & Hcfg & Hin). vm_compute in Hcfg. injection Hcfg as <-.
    apply elem_of_cons in Hin as [Heq|Hin]; [discriminate|].
    apply list_elem_of_singleton in Hin. discriminate.
Defined.

Lemma ValidatePermissions_unknown_module_witness :
  ValidatePermissions sample_keeper
    {| Base := Base sample_ModuleAccount; Name := "mint"; Permissions := [] |} = None ∧
  ValidatePermissions sample_keeper
    {| Base := Base sample_ModuleAccount; Name := "mint";
       Permissions := ["minter"]%string |} = Some (ErrInvalidPermission "minter").
Proof.
  split;
    apply (ValidatePermissions_unknown_module sample_AddressHash WireCodec sample_maccPerms);
    reflexivity.
Defined.

(** ** Module accounts, further *)

Section ModuleAccountsMore.

Variable AddressHash : bytes → bytes.
Variable c : BinaryCodec.
Variable maccPerms : gmap string (list string).

Local Abbreviation ak := (NewAccountKeeper AddressHash c maccPerms).
Local Abbreviation module_address := (NewModuleAddress AddressHash).

(** What a creation leaves behind: the account stored, the counter moved on
    by one, and the primary entry of every other address as it was. *)
Lemma GetModuleAccountAndPermissions_creates_post moduleName perms store n :
  CodecLaws c →
  maccPerms !! moduleName = Some perms →
  no_account_stored store (module_address moduleName) →
  stored_counter ak store = Some n →
  ∃ store',
    GetModuleAccountAndPermissions AddressHash ak moduleName store =
      Return (Some {| Base := {| Address := module_address moduleName; PubKey := None;
                                 AccountNumber := n; Sequence := 0 |};
                      Name := moduleName; Permissions := perms |}, perms) store' ∧
    account_stored ak store' (module_address moduleName)
      (ModuleAcc {| Base := {| Address := module_address moduleName; PubKey := None;
                               AccountNumber := n; Sequence := 0 |};
                    Name := moduleName; Permissions := perms |}) ∧
    stored_counter ak store' = Some (uint64_add n 1) ∧
    ∀ addr, addr ≠ module_address moduleName →
      store' !! AddressStoreKey addr = store !! AddressStoreKey addr.
Proof.
  intros laws Hcfg Habsent Hn.
  destruct (GetModuleAccountAndPermissions_creates _ _ _ _ _ _ _ laws Hcfg Habsent Hn)
    as (bzc & bza & Huc & Hua & Hrun).
  eexists. split; [exact Hrun|]. split; [|split].
  - exact (account_stored_after_SetAccount ak
             (<[GlobalAccountNumberKey := bzc]> store) _ bza Hua).
  - unfold stored_counter.
    rewrite lookup_insert_ne by apply AccountNumberStoreKey_not_counter.
    rewrite lookup_insert_ne by apply AddressStoreKey_not_counter.
    rewrite lookup_insert_eq. cbn [cdc NewAccountKeeper]. now rewrite Huc.
  - intros addr Hne.
    rewrite lookup_insert_ne by apply AccountNumberStoreKey_not_address.
    rewrite lookup_insert_ne by (intros H; apply AddressStoreKey_inj in H; congruence).
    rewrite lookup_insert_ne; [reflexivity|].
    intros H. symmetry in H. now apply AddressStoreKey_not_counter in H.
Qed.

(** X5: the account [GetModuleAccount] creates is one the keeper accepts.
    From a store without the module's account, the account returned passes
    [ValidatePermissions], and sits at the address [GetModuleAddress] gives
    for the module. *)
Theorem GetModuleAccount_creates_valid_account
    (moduleName : string) (perms : list string) (store : KVStore) (n : uint64) :
  CodecLaws c →
  maccPerms !! moduleName = Some perms →
  no_account_stored store (module_address moduleName) →
  stored_counter ak store = Some n →
  ∃ macc store',
    GetModuleAccount AddressHash ak moduleName store = Return (Some macc) store' ∧
    ValidatePermissions ak macc = None ∧
    GetModuleAddress ak moduleName = Some (Address (Base macc)).
Proof.
  intros laws Hcfg Habsent Hn.
  destruct (GetModuleAccountAndPermissions_creates_post _ _ _ _ laws Hcfg Habsent Hn)
    as (store' & Hrun & _).
  eexists. exists store'. split; [|split].
  - unfold GetModuleAccount, bind. rewrite Hrun. reflexivity.
  - unfold ValidatePermissions. cbn [Name Permissions].
    apply ValidatePermissions_loop_None. intros perm Hperm.
    apply HasPermission_declared. now exists perms.
  - unfold GetModuleAddress. rewrite permAddrs_lookup, Hcfg. reflexivity.
Qed.

(** X6: what [SetModuleAccount] saves at a module's address is what
    [GetModuleAccountAndPermissions] then returns, with the permissions of
    the table beside it, whatever permissions the account itself carries;
    the fetch writes nothing. *)
Theorem GetModuleAccountAndPermissions_after_SetModuleAccount
    (moduleName : string) (perms : list string) (macc : ModuleAccount) (store : KVStore) :
  CodecLaws c →
  maccPerms !! moduleName = Some perms →
  wf_base (Base macc) →
  Address (Base macc) = module_address moduleName →
  ∃ store',
    SetModuleAccount ak macc store = Return tt store' ∧
    GetModuleAccountAndPermissions AddressHash ak moduleName store' =
      Return (Some macc, perms) store'.
Proof.
  intros laws Hcfg Hwf Haddr.
  destruct (SetAccount_stores ak store (ModuleAcc macc) laws Hwf) as (bz & Hset & Hu).
  eexists. split; [exact Hset|].
  apply GetModuleAccountAndPermissions_stored; [exact Hcfg|].
  rewrite <- Haddr.
  exact (account_stored_after_SetAccount ak store (ModuleAcc macc) bz Hu).
Qed.

(** X7: two modules get two accounts.  With distinct derived addresses and
    neither account stored, fetching one module's account and then the
    other's creates both, numbered [n] and [n+1] (modulo 2^64) from the
    stored counter [n]; afterwards each module's account is still the one
    returned for it. *)
Theorem GetModuleAccount_two_modules
    (name1 name2 : string) (perms1 perms2 : list string) (store : KVStore) (n : uint64) :
  CodecLaws c →
  maccPerms !! name1 = Some perms1 →
  maccPerms !! name2 = Some perms2 →
  module_address name1 ≠ module_address name2 →
  no_account_stored store (module_address name1) →
  no_account_stored store (module_address name2) →
  stored_counter ak store = Some n →
  ∃ macc1 store1 macc2 store2,
    GetModuleAccount AddressHash ak name1 store = Return (Some macc1) store1 ∧
    GetModuleAccount AddressHash ak name2 store1 = Return (Some macc2) store2 ∧
    AccountNumber (Base macc1) = n ∧
    AccountNumber (Base macc2) = uint64_add n 1 ∧
    GetModuleAccount AddressHash ak name1 store2 = Return (Some macc1) store2 ∧
    GetModuleAccount AddressHash ak name2 store2 = Return (Some macc2) store2.
Proof.
  intros laws Hcfg1 Hcfg2 Hne Habs1 Habs2 Hn.
  destruct (GetModuleAccountAndPermissions_creates_post _ _ _ _ laws Hcfg1 Habs1 Hn)
    as (store1 & Hrun1 & Hst1 & Hn1 & Hframe1).
  assert (Habs2' : no_account_stored store1 (module_address name2)).
  { unfold no_account_stored. rewrite Hframe1 by congruence. exact Habs2. }
  destruct (GetModuleAccountAndPermissions_creates_post _ _ _ _ laws Hcfg2 Habs2' Hn1)
    as (store2 & Hrun2 & Hst2 & _ & Hframe2).
  assert (Hst1' : account_stored ak store2 (module_address name1)
            (ModuleAcc {| Base := {| Address := module_address name1; PubKey := None;
                                     AccountNumber := n; Sequence := 0 |};
                          Name := name1; Permissions := perms1 |})).
  { destruct Hst1 as (bz & Hbz & Hdec). exists bz. split; [|exact Hdec].
    now rewrite Hframe2. }
  eexists. exists store1. eexists. exists store2.
  split; [|split; [|split; [|split; [|split]]]].
  - unfold GetModuleAccount, bind. rewrite Hrun1. reflexivity.
  - unfold GetModuleAccount, bind. rewrite Hrun2. reflexivity.
  - reflexivity.
  - reflexivity.
  - unfold GetModuleAccount, bind.
    now rewrite (GetModuleAccountAndPermissions_stored _ _ _ _ _ _ _ Hcfg1 Hst1').
  - unfold GetModuleAccount, bind.
    now rewrite (GetModuleAccountAndPermissions_stored _ _ _ _ _ _ _ Hcfg2 Hst2).
Qed.

End ModuleAccountsMore.

Lemma GetModuleAccount_creates_valid_account_witness :
  ∃ macc store',
    GetModuleAccount sample_AddressHash sample_keeper "bonded_pool" ∅
      = Return (Some macc) store' ∧
    ValidatePermissions sample_keeper macc = None ∧
    GetModuleAddress sample_keeper "bonded_pool" = Some (Address (Base macc)).
Proof.
  apply (GetModuleAccount_creates_valid_account sample_AddressHash WireCodec
           sample_maccPerms "bonded_pool" ["burner"; "staking"]%string ∅ 0
           WireCodec_laws); reflexivity.
Defined.

Lemma GetModuleAccountAndPermissions_after_SetModuleAccount_witness :
  ∃ store',
    SetModuleAccount sample_keeper
      {| Base := Base sample_ModuleAccount; Name := "fee_collector";
         Permissions := ["minter"]%string |} ∅ = Return tt store' ∧
    GetModuleAccountAndPermissions sample_AddressHash sample_keeper "fee_collector" store' =
      Return (Some {| Base := Base sample_ModuleAccount; Name := "fee_collector";
                      Permissions := ["minter"]%string |}, ["burner"%string]) store'.
Proof.
  apply (GetModuleAccountAndPermissions_after_SetModuleAccount sample_AddressHash WireCodec
           sample_maccPerms "fee_collector" ["burner"%string] _ ∅ WireCodec_laws).
  - reflexivity.
  - repeat split; vm_compute; congruence.
  - reflexivity.
Defined.

Lemma GetModuleAccount_two_modules_witness :
  ∃ macc1 store1 macc2 store2,
    GetModuleAccount sample_AddressHash sample_keeper "fee_collector" ∅
      = Return (Some macc1) store1 ∧
    GetModuleAccount sample_AddressHash sample_keeper "bonded_pool" store1
      = Return (Some macc2) store2 ∧
    AccountNumber (Base macc1) = 0 ∧
    AccountNumber (Base macc2) = uint64_add 0 1 ∧
    GetModuleAccount sample_AddressHash sample_keeper "fee_collector" store2
      = Return (Some macc1) store2 ∧
    GetModuleAccount sample_AddressHash sample_keeper "bonded_pool" store2
      = Return (Some macc2) store2.
Proof.
  apply (GetModuleAccount_two_modules sample_AddressHash WireCodec sample_maccPerms
           "fee_collector" "bonded_pool" ["burner"%string] ["burner"; "staking"]%string
           ∅ 0 WireCodec_laws); try reflexivity.
  vm_compute. discriminate.
Defined.

(** ** Reading a stored account, further *)

(** X8: [GetSequence] and [GetPubKey] only read.  Whatever they return, the
    store is the one they were given; and on a stored record that the codec
    cannot decode they panic with the codec's error instead of returning an
    error value. *)
Theorem GetSequence_GetPubKey_read_only (ak : accountKeeper) (store : KVStore)
    (addr : bytes) :
  (∀ r store', GetSequence ak addr store = Return r store' → store' = store) ∧
  (∀ r store', GetPubKey ak addr store = Return r store' → store' = store) ∧
  (∀ bz err,
     store !! AddressStoreKey addr = Some bz →
     UnmarshalAccount ak bz = Err err →
     GetSequence ak addr store = Panic err ∧ GetPubKey ak addr store = Panic err).
Proof.
  assert (Hget : ∀ r store', GetAccount ak addr store = Return r store' → store' = store).
  { unfold GetAccount, decodeAccount. unfold_M.
    destruct (store !! AddressStoreKey addr) as [bz|]; [|now intros r store' [= _ <-]].
    destruct (UnmarshalAccount ak bz); [now intros r store' [= _ <-] | discriminate]. }
  split; [|split].
  - intros r store'. unfold GetSequence, bind.
    destruct (GetAccount ak addr store) as [acc store0|e] eqn:E; [|discriminate].
    pose proof (Hget _ _ eq_refl) as ->. destruct acc; now intros [= _ <-].
  - intros r store'. unfold GetPubKey, bind.
    destruct (GetAccount ak addr store) as [acc store0|e] eqn:E; [|discriminate].
    pose proof (Hget _ _ eq_refl) as ->. destruct acc; now intros [= _ <-].
  - intros bz err Hbz Hdec. unfold GetSequence, GetPubKey, bind.
    now rewrite (GetAccount_corrupt ak store addr bz err Hbz Hdec).
Qed.

Lemma GetSequence_GetPubKey_read_only_witness :
  GetSequence sample_keeper [x0a] {[ AddressStoreKey [x0a] := [xff] ]}
    = Panic (ErrCodec "AccountI") ∧
  GetPubKey sample_keeper [x0a] {[ AddressStoreKey [x0a] := [xff] ]}
    = Panic (ErrCodec "AccountI").
Proof.
  destruct (GetSequence_GetPubKey_read_only sample_keeper
              {[ AddressStoreKey [x0a] := [xff] ]} [x0a]) as (_ & _ & Hcorrupt).
  apply (Hcorrupt [xff]); reflexivity.
Defined.

(** * Further properties of the group conversions *)

(** ** Times that come out of a timestamp *)

Lemma Unix_normalised s n :
  - 2 ^ 31 ≤ n < 2 ^ 31 →
  0 ≤ time.nsec (time.Unix s n) < 10 ^ 9 ∧ time.loc (time.Unix s n) = time.Local.
Proof.
  intros Hn. unfold time.Unix. change (10 ^ 9) with 1000000000.
  destruct (Z.ltb_spec n 0) as [Hneg|Hpos]; cbn [orb].
  - pose proof (Z.quot_rem' n 1000000000) as Hqr.
    pose proof (Z.rem_bound_pos_neg n 1000000000 ltac:(lia) ltac:(lia)) as Hb.
    assert (Hrem : n - n ÷ 1000000000 * 1000000000 = Z.rem n 1000000000) by lia.
    rewrite Hrem. rewrite (int64_small (Z.rem n 1000000000)) by lia.
    destruct (Z.ltb_spec (Z.rem n 1000000000) 0) as [Hlt|Hge]; cbn [time.nsec time.loc].
    + rewrite (int64_small (Z.rem n 1000000000 + 1000000000)) by lia.
      rewrite int32_small by lia. split; [lia | reflexivity].
    + rewrite int32_small by lia. split; [lia | reflexivity].
  - destruct (Z.geb_spec n 1000000000) as [Hbig|Hsmall]; cbn [time.nsec time.loc].
    + pose proof (Z.quot_rem' n 1000000000) as Hqr.
      pose proof (Z.rem_bound_pos_pos n 1000000000 ltac:(lia) ltac:(lia)) as Hb.
      assert (Hrem : n - n ÷ 1000000000 * 1000000000 = Z.rem n 1000000000) by lia.
      rewrite Hrem. rewrite (int64_small (Z.rem n 1000000000)) by lia.
      destruct (Z.ltb_spec (Z.rem n 1000000000) 0) as [Hlt|Hge]; cbn [time.nsec time.loc];
        [lia|].
      rewrite int32_small by lia. split; [lia | reflexivity].
    + rewrite int32_small by lia. split; [lia | reflexivity].
Qed.

(** Whatever the timestamp, [AsTime] gives a UTC time whose nanoseconds are
    within the second. *)
Lemma AsTime_normalised x :
  timestamp_typed x →
  time.loc (timestamppb.AsTime x) = time.UTC ∧
  0 ≤ time.nsec (timestamppb.AsTime x) < 10 ^ 9.
Proof.
  intros Htyped. unfold timestamppb.AsTime, time.to_UTC. cbn [time.loc time.nsec].
  split; [reflexivity|].
  apply Unix_normalised.
  destruct x as [ts|]; cbn [timestamppb.GetNanos timestamp_typed] in *.
  - rewrite int64_small; lia.
  - rewrite int64_small; lia.
Qed.

Lemma New_AsTime x :
  timestamp_typed x →
  (timestamppb.New (timestamppb.AsTime x) = x ↔ timestamp_normal x).
Proof.
  intros Htyped. split.
  - intros Heq. destruct (AsTime_normalised x Htyped) as [_ Hnsec].
    destruct x as [ts|]; [|discriminate].
    exists ts. split; [reflexivity|].
    unfold timestamppb.New, time.Nanosecond in Heq. injection Heq as Heq.
    apply (f_equal timestamppb.Nanos) in Heq.
    change (int32 (time.nsec (timestamppb.AsTime (Some ts))) = timestamppb.Nanos ts) in Heq.
    change (10 ^ 9) with 1000000000 in *.
    rewrite int32_small in Heq by lia. lia.
  - intros (ts & -> & Hnanos). cbn [timestamp_typed] in Htyped.
    destruct Htyped as [Hsec Hn32]. change (10 ^ 9) with 1000000000 in Hnanos.
    destruct ts as [s n]. cbn [timestamppb.Seconds timestamppb.Nanos] in *.
    unfold timestamppb.New, timestamppb.AsTime, timestamppb.GetSeconds,
      timestamppb.GetNanos, time.Unix_of, time.Nanosecond, time.to_UTC, time.Unix.
    cbn [timestamppb.Seconds timestamppb.Nanos].
    rewrite (int64_small s) by lia. rewrite (int64_small n) by lia.
    change (10 ^ 9) with 1000000000.
    destruct (Z.ltb_spec n 0) as [?|_]; [lia|].
    destruct (Z.geb_spec n 1000000000) as [?|_]; [lia|].
    cbn [orb time.sec time.nsec].
    rewrite (int32_small n) by lia. rewrite (int64_small s) by lia.
    now rewrite (int32_small n) by lia.
Qed.

(** X9: whatever timestamp it is given, also a nil one or one whose
    nanoseconds are out of range, [GroupInfoFromPulsar] yields a [CreatedAt]
    in UTC with its nanoseconds within the second, and so does
    [VoteFromPulsar] for [SubmitTime]; a nil timestamp becomes the Unix
    epoch. *)
Theorem FromPulsar_times_are_normal :
  (∀ q : groupv1.GroupInfo,
     timestamp_typed (groupv1.GroupInfo_CreatedAt q) →
     time.loc (GroupInfo_CreatedAt (GroupInfoFromPulsar q)) = time.UTC ∧
     0 ≤ time.nsec (GroupInfo_CreatedAt (GroupInfoFromPulsar q)) < 10 ^ 9 ∧
     (groupv1.GroupInfo_CreatedAt q = None →
      GroupInfo_CreatedAt (GroupInfoFromPulsar q)
        = {| time.sec := 0; time.nsec := 0; time.loc := time.UTC |})) ∧
  (∀ v : groupv1.Vote,
     timestamp_typed (groupv1.Vote_SubmitTime v) →
     time.loc (Vote_SubmitTime (VoteFromPulsar v)) = time.UTC ∧
     0 ≤ time.nsec (Vote_SubmitTime (VoteFromPulsar v)) < 10 ^ 9 ∧
     (groupv1.Vote_SubmitTime v = None →
      Vote_SubmitTime (VoteFromPulsar v)
        = {| time.sec := 0; time.nsec := 0; time.loc := time.UTC |})).
Proof.
  split.
  - intros q Htyped. cbn [GroupInfoFromPulsar GroupInfo_CreatedAt].
    destruct (AsTime_normalised _ Htyped) as [Hloc Hnsec].
    split; [exact Hloc|]. split; [exact Hnsec|]. now intros ->.
  - intros v Htyped. cbn [VoteFromPulsar Vote_SubmitTime].
    destruct (AsTime_normalised _ Htyped) as [Hloc Hnsec].
    split; [exact Hloc|]. split; [exact Hnsec|]. now intros ->.
Qed.

(** X10: the other way round.  [GroupInfoToPulsar] after
    [GroupInfoFromPulsar] gives back the value it started from exactly when
    its timestamp is there and has its nanoseconds within the second; the
    same holds of [VoteToPulsar] after [VoteFromPulsar]. *)
Theorem ToPulsar_FromPulsar_iff_normal :
  (∀ q : groupv1.GroupInfo,
     timestamp_typed (groupv1.GroupInfo_CreatedAt q) →
     (GroupInfoToPulsar (GroupInfoFromPulsar q) = q
      ↔ timestamp_normal (groupv1.GroupInfo_CreatedAt q))) ∧
  (∀ v : groupv1.Vote,
     timestamp_typed (groupv1.Vote_SubmitTime v) →
     (VoteToPulsar (VoteFromPulsar v) = v
      ↔ timestamp_normal (groupv1.Vote_SubmitTime v))).
Proof.
  split.
  - intros q Htyped. rewrite <- (New_AsTime _ Htyped).
    destruct q as [id admin version weight meta created].
    unfold GroupInfoToPulsar, GroupInfoFromPulsar.
    cbn [GroupInfo_Id GroupInfo_Admin GroupInfo_Version GroupInfo_TotalWeight
         GroupInfo_Metadata GroupInfo_CreatedAt groupv1.GroupInfo_Id
         groupv1.GroupInfo_Admin groupv1.GroupInfo_Version groupv1.GroupInfo_TotalWeight
         groupv1.GroupInfo_Metadata groupv1.GroupInfo_CreatedAt].
    split; [now intros [= ->] | now intros ->].
  - intros v Htyped. rewrite <- (New_AsTime _ Htyped).
    destruct v as [pid voter opt meta submitted].
    unfold VoteToPulsar, VoteFromPulsar, of_groupv1_VoteOption, to_groupv1_VoteOption.
    cbn [Vote_ProposalId Vote_Voter Vote_Option Vote_Metadata Vote_SubmitTime
         groupv1.Vote_ProposalId groupv1.Vote_Voter groupv1.Vote_Option
         groupv1.Vote_Metadata groupv1.Vote_SubmitTime].
    split; [now intros [= ->] | now intros ->].
Qed.

Lemma FromPulsar_times_are_normal_witness :
  GroupInfo_CreatedAt
    (GroupInfoFromPulsar
       {| groupv1.GroupInfo_Id := 1; groupv1.GroupInfo_Admin := "cosmos1admin";
          groupv1.GroupInfo_Version := 1; groupv1.GroupInfo_TotalWeight := "1";
          groupv1.GroupInfo_Metadata := "group";
          groupv1.GroupInfo_CreatedAt := None |})
  = {| time.sec := 0; time.nsec := 0; time.loc := time.UTC |} ∧
  0 ≤ time.nsec
        (Vote_SubmitTime
           (VoteFromPulsar
              {| groupv1.Vote_ProposalId := 5; groupv1.Vote_Voter := "cosmos1voter";
                 groupv1.Vote_Option := 1; groupv1.Vote_Metadata := "yes";
                 groupv1.Vote_SubmitTime :=
                   Some {| timestamppb.Seconds := 10; timestamppb.Nanos := -1 |} |}))
    < 10 ^ 9.
Proof.
  destruct FromPulsar_times_are_normal as [Hgroup Hvote]. split.
  - apply Hgroup; [exact I | reflexivity].
  - apply Hvote. split; split; vm_compute; congruence.
Defined.

Lemma ToPulsar_FromPulsar_iff_normal_witness :
  GroupInfoToPulsar (GroupInfoFromPulsar (GroupInfoToPulsar sample_GroupInfo))
    = GroupInfoToPulsar sample_GroupInfo ∧
  VoteToPulsar (VoteFromPulsar (VoteToPulsar sample_Vote)) = VoteToPulsar sample_Vote.
Proof.
  destruct ToPulsar_FromPulsar_iff_normal as [Hgroup Hvote]. split.
  - apply Hgroup.
    + split; split; vm_compute; congruence.
    + eexists. split; [reflexivity|]. split; vm_compute; congruence.
  - apply Hvote.
    + split; split; vm_compute; congruence.
    + eexists. split; [reflexivity|]. split; vm_compute; congruence.
Defined.

(** ** Group members *)

(** X11: the member address does not survive on its own.
    [GroupMemberToPulsar] followed by [GroupMemberFromPulsar] returns the
    group member with its [MemberAddress] replaced by the address of its
    [Member]; so the round trip gives back the value it started from exactly
    when the two addresses agree.  ([AddedAt] is a UTC time that a timestamp
    can hold.) *)
Theorem GroupMember_round_trip (g : GroupMember) (m : Member) :
  GroupMember_Member g = Some m →
  utc_representable (Member_AddedAt m) →
  and_then (GroupMemberToPulsar g) GroupMemberFromPulsar =
    Done {| GroupMember_GroupId := GroupMember_GroupId g;
            GroupMember_MemberAddress := Member_Address m;
            GroupMember_Member := Some m |} ∧
  (and_then (GroupMemberToPulsar g) GroupMemberFromPulsar = Done g
   ↔ GroupMember_MemberAddress g = Member_Address m).
Proof.
  intros Hm Hutc.
  assert (Hrun : and_then (GroupMemberToPulsar g) GroupMemberFromPulsar =
            Done {| GroupMember_GroupId := GroupMember_GroupId g;
                    GroupMember_MemberAddress := Member_Address m;
                    GroupMember_Member := Some m |}).
  { unfold GroupMemberToPulsar, GroupMemberFromPulsar, and_then. rewrite Hm.
    cbn [v1_GroupMember_Member v1_GroupMember_GroupId v1_Member_Address v1_Member_Weight
         v1_Member_Metadata v1_Member_AddedAt].
    rewrite AsTime_New by exact Hutc. now destruct m. }
  split; [exact Hrun|]. rewrite Hrun.
  destruct g as [gid addr member]. cbn [GroupMember_Member GroupMember_GroupId
    GroupMember_MemberAddress] in *. subst member.
  split; [now intros [= <-] | now intros ->].
Qed.

(** X12: both group-member conversions need the member.  Each panics with
    a nil dereference exactly when its argument has no [Member]; and what
    either returns has a [Member] whose address is also the result's
    [MemberAddress], whatever [MemberAddress] the argument had. *)
Theorem GroupMember_conversions_need_member :
  (∀ q, GroupMemberFromPulsar q = Panicked NilDereference
        ↔ v1_GroupMember_Member q = None) ∧
  (∀ g, GroupMemberToPulsar g = Panicked NilDereference
        ↔ GroupMember_Member g = None) ∧
  (∀ q g, GroupMemberFromPulsar q = Done g →
     ∃ m, GroupMember_Member g = Some m ∧ GroupMember_MemberAddress g = Member_Address m) ∧
  (∀ g q, GroupMemberToPulsar g = Done q →
     ∃ m, v1_GroupMember_Member q = Some m ∧
          v1_GroupMember_MemberAddress q = v1_Member_Address m).
Proof.
  split; [|split; [|split]].
  - intros q. unfold GroupMemberFromPulsar.
    destruct (v1_GroupMember_Member q); split; (discriminate || reflexivity).
  - intros g. unfold GroupMemberToPulsar.
    destruct (GroupMember_Member g); split; (discriminate || reflexivity).
  - intros q g. unfold GroupMemberFromPulsar.
    destruct (v1_GroupMember_Member q); [|discriminate].
    intros [= <-]. eexists. split; reflexivity.
  - intros g q. unfold GroupMemberToPulsar.
    destruct (GroupMember_Member g); [|discriminate].
    intros [= <-]. eexists. split; reflexivity.
Qed.

Lemma GroupMember_round_trip_witness :
  and_then
    (GroupMemberToPulsar
       {| GroupMember_GroupId := 1; GroupMember_MemberAddress := "cosmos1other";
          GroupMember_Member := Some sample_Member |})
    GroupMemberFromPulsar
  = Done {| GroupMember_GroupId := 1; GroupMember_MemberAddress := "cosmos1member";
            GroupMember_Member := Some sample_Member |}.
Proof.
  apply (GroupMember_round_trip
           {| GroupMember_GroupId := 1; GroupMember_MemberAddress := "cosmos1other";
              GroupMember_Member := Some sample_Member |} sample_Member).
  - reflexivity.
  - split; [reflexivity | repeat split; vm_compute; congruence].
Defined.

Lemma GroupMember_conversions_need_member_witness :
  GroupMemberToPulsar
    {| GroupMember_GroupId := 1; GroupMember_MemberAddress := "cosmos1member";
       GroupMember_Member := None |} = Panicked NilDereference.
Proof.
  destruct GroupMember_conversions_need_member as (_ & Hto & _).
  apply Hto. reflexivity.
Defined.

(** ** Proposals and group policies *)

Lemma convert_messages_map {A B} (convert : A → B) (msgs : list A) :
  convert_messages convert msgs = map convert msgs.
Proof.
  unfold convert_messages.
  assert (H : ∀ acc, foldl (λ messages msg, messages ++ [convert msg]) acc msgs
                     = acc ++ map convert msgs).
  { induction msgs as [|msg msgs IH]; intros acc; cbn [foldl map].
    - now rewrite app_nil_r.
    - rewrite IH. now rewrite <- app_assoc. }
  apply (H []).
Qed.

Section AnyConversionsProperties.

Variables GogoAny AnyV2 DecisionPolicy : Type.
Variable GogoAnyToAnyV2 : GogoAny → AnyV2.
Variable AnyV2ToGogoAny : AnyV2 → GogoAny.
Variable NewAnyWithValue : DecisionPolicy → result GogoAny.

Local Abbreviation ToPulsar := (ProposalToPulsar GogoAny AnyV2 GogoAnyToAnyV2).
Local Abbreviation FromPulsar :=
  (ProposalFromPulsar GogoAny AnyV2 DecisionPolicy AnyV2ToGogoAny).
Local Abbreviation PolicyToPulsar := (GroupPolicyInfoToPulsar GogoAny AnyV2 GogoAnyToAnyV2).
Local Abbreviation PolicyFromPulsar :=
  (GroupPolicyInfoFromPulsar GogoAny AnyV2 DecisionPolicy AnyV2ToGogoAny NewAnyWithValue).

(** X13: a proposal's messages are converted one by one, in order, none
    dropped and none added; and [ProposalFromPulsar] after
    [ProposalToPulsar] gives back the proposal when its two times are UTC
    times that a timestamp can hold and each of its messages survives the
    two conversions of a packed message.  The codec handed to
    [ProposalFromPulsar] plays no part. *)
Theorem ProposalFromPulsar_ProposalToPulsar
    (cdc : Codec GogoAny DecisionPolicy) (p : Proposal GogoAny) :
  v1_Proposal_Messages _ (ToPulsar p) = map GogoAnyToAnyV2 (Proposal_Messages _ p) ∧
  (utc_representable (Proposal_SubmitTime _ p) →
   utc_representable (Proposal_VotingPeriodEnd _ p) →
   (∀ msg, msg ∈ Proposal_Messages _ p → AnyV2ToGogoAny (GogoAnyToAnyV2 msg) = msg) →
   FromPulsar cdc (ToPulsar p) = p).
Proof.
  split.
  - unfold ProposalToPulsar. cbn [v1_Proposal_Messages]. apply convert_messages_map.
  - intros Hsubmit Hend Hmsgs. destruct p.
    unfold ProposalFromPulsar, ProposalToPulsar,
      of_groupv1_ProposalStatus, to_groupv1_ProposalStatus,
      of_groupv1_ProposalExecutorResult, to_groupv1_ProposalExecutorResult.
    cbv zeta. rewrite !convert_messages_map.
    cbn in *. rewrite !AsTime_New by assumption.
    rewrite map_map.
    f_equal. rewrite <- (map_id Proposal_Messages0) at 2.
    apply map_ext_in. intros msg Hin. apply Hmsgs. now apply list_elem_of_In.
Qed.

(** X14: [GroupPolicyInfoFromPulsar] after [GroupPolicyInfoToPulsar] gives
    back the group policy when its decision policy, if it has one, survives
    the two conversions of a packed message and is what the codec's
    unpacking followed by [NewAnyWithValue] packs again.  Without a decision
    policy nothing is asked of the codec, and the round trip always
    holds. *)
Theorem GroupPolicyInfoFromPulsar_GroupPolicyInfoToPulsar
    (cdc : Codec GogoAny DecisionPolicy) (g : GroupPolicyInfo GogoAny) :
  (∀ any, GroupPolicyInfo_DecisionPolicy _ g = Some any →
     AnyV2ToGogoAny (GogoAnyToAnyV2 any) = any ∧
     ∃ decisionPolicy,
       UnpackAny _ _ cdc any = Ok decisionPolicy ∧
       NewAnyWithValue decisionPolicy = Ok any) →
  PolicyFromPulsar cdc (PolicyToPulsar g) = Done g.
Proof.
  intros Hpolicy. destruct g as [addr gid admin meta version seq policy].
  unfold GroupPolicyInfoFromPulsar, GroupPolicyInfoToPulsar, with_DecisionPolicy.
  cbn in *. destruct policy as [any|]; [|reflexivity].
  destruct (Hpolicy any eq_refl) as (Hany & d & Hunpack & Hpack).
  now rewrite Hany, Hunpack, Hpack.
Qed.


End AnyConversionsProperties.

Lemma ProposalFromPulsar_ProposalToPulsar_witness :
  ProposalFromPulsar sample_Any sample_Any Z id sample_Codec
    (ProposalToPulsar sample_Any sample_Any id sample_Proposal) = sample_Proposal.
Proof.
  destruct (ProposalFromPulsar_ProposalToPulsar sample_Any sample_Any Z id id
              sample_Codec sample_Proposal) as [_ Hround].
  apply Hround.
  - split; [reflexivity | repeat split; vm_compute; congruence].
  - split; [reflexivity | repeat split; vm_compute; congruence].
  - reflexivity.
Defined.

Lemma GroupPolicyInfoFromPulsar_GroupPolicyInfoToPulsar_witness :
  GroupPolicyInfoFromPulsar sample_Any sample_Any Z id sample_NewAnyWithValue sample_Codec
    (GroupPolicyInfoToPulsar sample_Any sample_Any id sample_GroupPolicyInfo)
  = Done sample_GroupPolicyInfo.
Proof.
  apply (GroupPolicyInfoFromPulsar_GroupPolicyInfoToPulsar sample_Any sample_Any Z id id
           sample_NewAnyWithValue sample_Codec sample_GroupPolicyInfo).
  intros any [= <-]. split; [reflexivity|].
  exists 3. split; reflexivity.
Defined.

